(** * Docs2Vector: a shallow embedding of src/lib/Docs2Vector.js (and of the
    library code it configures), with the properties of its pipeline. *)

From Stdlib Require Import String Ascii List Arith Lia Bool ZArith.
Import ListNotations.
Open Scope string_scope.
Open Scope list_scope.
Open Scope nat_scope.
Set Warnings "-register-all".

(** ** JavaScript strings

    A JS string is a sequence of UTF-16 code units; the development works with
    code units below 256, one [ascii] each, so [String.length] is JS's
    [.length]. *)
Module JsString.

(** [s.startsWith(p)] *)
Definition startsWith (s p : string) : bool := String.prefix p s.

(** [s.endsWith(p)] *)
Fixpoint endsWith (s p : string) : bool :=
  if String.eqb s p then true
  else match s with
       | EmptyString => false
       | String _ r => endsWith r p
       end.

(** [s.includes(p)]: [p] occurs at some position of [s]. *)
Fixpoint includes (s p : string) : bool :=
  String.prefix p s ||
  match s with
  | EmptyString => false
  | String _ r => includes r p
  end.

(** [s.split(c)] for a one-character separator [c]: the pieces between the
    occurrences of [c]; [""] gives [[""]]. *)
Fixpoint split_char (c : ascii) (s : string) : list string :=
  match s with
  | EmptyString => [EmptyString]
  | String d r =>
      let rest := split_char c r in
      if Ascii.eqb c d then EmptyString :: rest
      else match rest with
           | [] => [String d EmptyString]
           | w :: ws => String d w :: ws
           end
  end.

(** [arr.pop()] on a non-empty array: its last element ([split] never
    returns an empty array). *)
Definition pop_last (l : list string) : string := last l EmptyString.

(** The suffix of [s] after its first [n] code units. *)
Fixpoint drop (n : nat) (s : string) : string :=
  match n, s with
  | 0, _ => s
  | S _, EmptyString => EmptyString
  | S m, String _ r => drop m r
  end.

(** [s.replace(pat, rep)] with a string pattern: JS replaces the FIRST
    occurrence only (an empty pattern matches at index 0). *)
Fixpoint replace (s pat rep : string) : string :=
  if String.prefix pat s then String.append rep (drop (String.length pat) s)
  else match s with
       | EmptyString => EmptyString
       | String c r => String c (replace r pat rep)
       end.

End JsString.

(** ** Namespace derivation (Docs2Vector.js, [run], line 132)

    [this.namespace = repoUrl.split('/').pop().replace('.git', '');] *)
Module Namespace.
Import JsString.

Definition slash : ascii := "/"%char.

Definition namespace_of (repoUrl : string) : string :=
  replace (pop_last (split_char slash repoUrl)) ".git" "".

(** The namespace as the spec words it: the final '/'-separated segment,
    with a trailing ".git" removed from its end (and nothing else). *)
Definition strip_suffix (s suf : string) : string :=
  if endsWith s suf
  then String.substring 0 (String.length s - String.length suf) s
  else s.

Definition namespace_spec (repoUrl : string) : string :=
  strip_suffix (pop_last (split_char slash repoUrl)) ".git".

End Namespace.

(** ** The recursive text splitter

    [Docs2Vector] builds [new RecursiveCharacterTextSplitter({chunkSize: 1000,
    chunkOverlap: 200, separators: ["\n\n", "\n", " ", ""]})] (lines 50-54)
    and calls [splitDocuments([doc])] on each file (line 101). The splitter is
    LangChain's ([@langchain/textsplitters], re-exported as
    [langchain/text_splitter]); its methods are embedded here as that library
    writes them: [RecursiveCharacterTextSplitter] sets [keepSeparator = true]
    when the options do not mention it, and its length function is
    [text.length]. *)
Module TextSplitter.
Import JsString.

(** JS's [String.prototype.trim] removes WhiteSpace and LineTerminator code
    units; below 256 these are TAB, LF, VT, FF, CR, SPACE and NBSP. *)
Definition is_ws (c : ascii) : bool :=
  let n := nat_of_ascii c in
  (9 <=? n) && (n <=? 13) || (n =? 32) || (n =? 160).

Fixpoint trim_start (s : string) : string :=
  match s with
  | EmptyString => EmptyString
  | String c r => if is_ws c then trim_start r else s
  end.

Fixpoint trim_end (s : string) : string :=
  match s with
  | EmptyString => EmptyString
  | String c r =>
      let r' := trim_end r in
      if String.eqb r' EmptyString && is_ws c then EmptyString else String c r'
  end.

Definition trim (s : string) : string := trim_end (trim_start s).

(** [text.split("")]: one piece per code unit. *)
Fixpoint chars (s : string) : list string :=
  match s with
  | EmptyString => []
  | String c r => String c EmptyString :: chars r
  end.

(** [text.split(new RegExp(`(?=${sep})`))] for a non-empty [sep]: the text is
    cut before every index [q >= 1] at which [sep] occurs; [""] gives [[""]]. *)
Fixpoint split_keep_go (sep rest cur : string) : list string :=
  match rest with
  | EmptyString => [cur]
  | String c r =>
      if String.prefix sep rest
      then cur :: split_keep_go sep r (String c EmptyString)
      else split_keep_go sep r (String.append cur (String c EmptyString))
  end.

Definition split_keep (sep text : string) : list string :=
  match text with
  | EmptyString => [EmptyString]
  | String c r => split_keep_go sep r (String c EmptyString)
  end.

(** [splitOnSeparator(text, separator)] with [keepSeparator = true]. *)
Definition splitOnSeparator (text sep : string) : list string :=
  filter (fun s => negb (String.eqb s EmptyString))
         (if String.eqb sep EmptyString then chars text else split_keep sep text).

(** [joinDocs(docs, separator)]: [null] is [None]. *)
Definition joinDocs (docs : list string) (sep : string) : option string :=
  let text := trim (String.concat sep docs) in
  if String.eqb text EmptyString then None else Some text.

Definition opt_list {A} (o : option A) : list A :=
  match o with Some a => [a] | None => [] end.

Definition is_nil {A} (l : list A) : bool :=
  match l with [] => true | _ => false end.

Section Splitter.
Variables chunkSize chunkOverlap : nat.

(** The [while] loop of [mergeSplits]: drop from the front of [currentDoc]
    while [total > chunkOverlap || (total + _len + currentDoc.length *
    separator.length > chunkSize && total > 0)]. ([total] is the summed length
    of [currentDoc], so the loop stops by the time [currentDoc] is empty.) *)
Fixpoint shrink (sep : string) (len : nat) (cur : list string) (total : nat)
  : list string * nat :=
  match cur with
  | [] => ([], total)
  | c :: cs =>
      if (chunkOverlap <? total)
         || ((chunkSize <? total + len + List.length cur * String.length sep)
             && (0 <? total))
      then shrink sep len cs (total - String.length c)
      else (cur, total)
  end.

(** The [for (const d of splits)] loop of [mergeSplits] and the final
    [joinDocs]; [cur] is [currentDoc], [total] is [total]. *)
Fixpoint merge_go (sep : string) (splits cur : list string) (total : nat)
  : list string :=
  match splits with
  | [] => opt_list (joinDocs cur sep)
  | d :: ds =>
      let len := String.length d in
      if (chunkSize <? total + len + List.length cur * String.length sep)
         && negb (is_nil cur)
      then
        let emitted := opt_list (joinDocs cur sep) in
        let '(cur', total') := shrink sep len cur total in
        emitted ++ merge_go sep ds (cur' ++ [d]) (total' + len)
      else merge_go sep ds (cur ++ [d]) (total + len)
  end.

Definition mergeSplits (splits : list string) (sep : string) : list string :=
  merge_go sep splits [] 0.

(** The [for (const s of splits)] loop of [_splitText]; [good] is
    [goodSplits], [rec] is [newSeparators] ([None] when undefined) given as
    the recursive call [_splitText(_, newSeparators)]. With [keepSeparator]
    the merge separator [_separator] is [""]. *)
Fixpoint split_loop (rec : option (string -> list string))
    (splits good : list string) : list string :=
  match splits with
  | [] => if is_nil good then [] else mergeSplits good EmptyString
  | s :: ss =>
      if String.length s <? chunkSize then split_loop rec ss (good ++ [s])
      else (if is_nil good then [] else mergeSplits good EmptyString)
           ++ match rec with None => [s] | Some f => f s end
           ++ split_loop rec ss []
  end.

(** [_splitText(text, separators)]: the first separator that is [""] or
    occurs in [text] is chosen ([separators[separators.length - 1]], here
    [dflt], when none is); [newSeparators] is the rest after a non-empty
    choice. *)
Fixpoint split_go (dflt : string) (seps : list string) (text : string)
  : list string :=
  match seps with
  | [] => split_loop None (splitOnSeparator text dflt) []
  | s :: rest =>
      if String.eqb s EmptyString
      then split_loop None (splitOnSeparator text EmptyString) []
      else if includes text s
      then split_loop (Some (split_go (last rest EmptyString) rest))
                      (splitOnSeparator text s) []
      else split_go dflt rest text
  end.

Definition splitText (seps : list string) (text : string) : list string :=
  split_go (last seps EmptyString) seps text.

End Splitter.

Definition nl : string := String (ascii_of_nat 10) EmptyString.

(** Docs2Vector's configuration (lines 50-54). *)
Definition chunkSize : nat := 1000.
Definition chunkOverlap : nat := 200.
Definition separators : list string :=
  [String.append nl nl; nl; " "; EmptyString].

(** [splitDocuments([new Document({pageContent: content})])]: the page
    contents of the returned documents ([createDocuments] sets [pageContent]
    to the chunk, the default chunk header being [""]). *)
Definition splitDocuments (content : string) : list string :=
  splitText chunkSize chunkOverlap separators content.

End TextSplitter.

(** ** Chunk identity (Docs2Vector.js, [#generateId], lines 58-60)

    [crypto.createHash('md5').update(content).digest('hex')]: Node encodes the
    string [content] in UTF-8, hashes the bytes with MD5 (RFC 1321) and writes
    the 16-byte digest as lowercase hexadecimal. *)
Module Md5.
Open Scope Z_scope.

Definition two32 : Z := 2 ^ 32.
Definition mask32 : Z := two32 - 1.

Definition add32 (a b : Z) : Z := (a + b) mod two32.
Definition not32 (a : Z) : Z := Z.lxor a mask32.
Definition rotl32 (x : Z) (c : Z) : Z :=
  Z.lor (Z.shiftl x c mod two32) (Z.shiftr x (32 - c)).

(** [K[i] = floor(2^32 * |sin(i + 1)|)]. *)
Definition K : list Z :=
  [3614090360; 3905402710; 606105819; 3250441966; 4118548399; 1200080426;
   2821735955; 4249261313; 1770035416; 2336552879; 4294925233; 2304563134;
   1804603682; 4254626195; 2792965006; 1236535329; 4129170786; 3225465664;
   643717713; 3921069994; 3593408605; 38016083; 3634488961; 3889429448;
   568446438; 3275163606; 4107603335; 1163531501; 2850285829; 4243563512;
   1735328473; 2368359562; 4294588738; 2272392833; 1839030562; 4259657740;
   2763975236; 1272893353; 4139469664; 3200236656; 681279174; 3936430074;
   3572445317; 76029189; 3654602809; 3873151461; 530742520; 3299628645;
   4096336452; 1126891415; 2878612391; 4237533241; 1700485571; 2399980690;
   4293915773; 2240044497; 1873313359; 4264355552; 2734768916; 1309151649;
   4149444226; 3174756917; 718787259; 3951481745].

(** Per-round left-rotation amounts. *)
Definition R : list Z :=
  [7; 12; 17; 22; 7; 12; 17; 22; 7; 12; 17; 22; 7; 12; 17; 22;
   5; 9; 14; 20; 5; 9; 14; 20; 5; 9; 14; 20; 5; 9; 14; 20;
   4; 11; 16; 23; 4; 11; 16; 23; 4; 11; 16; 23; 4; 11; 16; 23;
   6; 10; 15; 21; 6; 10; 15; 21; 6; 10; 15; 21; 6; 10; 15; 21].

(** The auxiliary function of round [i] and the index of the message word
    it consumes. *)
Definition fg (i : nat) (b c d : Z) : Z * nat :=
  if (i <? 16)%nat then (Z.lor (Z.land b c) (Z.land (not32 b) d), i)
  else if (i <? 32)%nat then
    (Z.lor (Z.land d b) (Z.land (not32 d) c), (5 * i + 1) mod 16)%nat
  else if (i <? 48)%nat then (Z.lxor b (Z.lxor c d), (3 * i + 5) mod 16)%nat
  else (Z.lxor c (Z.lor b (not32 d)), (7 * i) mod 16)%nat.

Definition step (m : list Z) (st : Z * Z * Z * Z) (i : nat) : Z * Z * Z * Z :=
  let '(a, b, c, d) := st in
  let '(f, g) := fg i b c d in
  let f' := add32 (add32 (add32 f a) (nth i K 0)) (nth g m 0) in
  (d, add32 b (rotl32 f' (nth i R 0)), b, c).

(** Little-endian 32-bit words of a 64-byte block. *)
Fixpoint words (n : nat) (blk : list Z) : list Z :=
  match n with
  | O => []
  | S n' =>
      match blk with
      | b0 :: b1 :: b2 :: b3 :: rest =>
          (b0 + 256 * b1 + 65536 * b2 + 16777216 * b3) :: words n' rest
      | _ => []
      end
  end.

Definition compress (st : Z * Z * Z * Z) (blk : list Z) : Z * Z * Z * Z :=
  let m := words 16 blk in
  let '(a, b, c, d) := st in
  let '(a', b', c', d') := fold_left (step m) (seq 0 64) st in
  (add32 a a', add32 b b', add32 c c', add32 d d').

(** Little-endian bytes of the low [n] bytes of [x]. *)
Fixpoint le_bytes (n : nat) (x : Z) : list Z :=
  match n with
  | O => []
  | S n' => (x mod 256) :: le_bytes n' (x / 256)
  end.

(** Padding: [0x80], zeros up to 56 mod 64, then the bit length mod 2^64. *)
Definition pad (msg : list Z) : list Z :=
  let n := List.length msg in
  msg ++ [128] ++ repeat 0 ((119 - n mod 64) mod 64)%nat
      ++ le_bytes 8 ((8 * Z.of_nat n) mod 2 ^ 64).

Fixpoint blocks (fuel : nat) (st : Z * Z * Z * Z) (l : list Z) : Z * Z * Z * Z :=
  match fuel with
  | O => st
  | S f =>
      match l with
      | [] => st
      | _ => blocks f (compress st (firstn 64 l)) (skipn 64 l)
      end
  end.

Definition init : Z * Z * Z * Z := (1732584193, 4023233417, 2562383102, 271733878).

(** The 16-byte MD5 digest of a byte sequence. *)
Definition md5 (msg : list Z) : list Z :=
  let p := pad msg in
  let '(a, b, c, d) := blocks (List.length p) init p in
  le_bytes 4 a ++ le_bytes 4 b ++ le_bytes 4 c ++ le_bytes 4 d.

(** UTF-8 encoding of a string of code units below 256. *)
Definition utf8_unit (c : ascii) : list Z :=
  let n := Z.of_nat (nat_of_ascii c) in
  if n <? 128 then [n] else [192 + n / 64; 128 + n mod 64].

Definition utf8 (s : string) : list Z := flat_map utf8_unit (list_ascii_of_string s).

Definition hex_digit (v : Z) : ascii :=
  if v <? 10 then ascii_of_nat (48 + Z.to_nat v) else ascii_of_nat (87 + Z.to_nat v).

(** [digest('hex')]: two lowercase hex digits per byte. *)
Definition hex (bytes : list Z) : string :=
  string_of_list_ascii (flat_map (fun b => [hex_digit (b / 16); hex_digit (b mod 16)]) bytes).

Definition generateId (content : string) : string := hex (md5 (utf8 content)).


End Md5.

(** ** The pipeline: file discovery, document processing, batched upsert and
    the orchestrator [run] (Docs2Vector.js, lines 62-166).

    The effects of [run] are threaded through a state-and-exception monad: the
    state records whether the working copy [temp_repo] is on disk, how many
    store calls were issued, and the trace of observable effects. The outside
    world (git, the file system, OpenAI, the Upstash index, the clock) is an
    [Env]. *)
Module Pipeline.
Import JsString.

(** The JS values of a chunk record. *)
Inductive jsval : Type :=
| JStr (s : string)
| JNum (n : nat)
| JArr (v : list Z)
| JUndefined
| JObj (fields : list (string * jsval)).

(** An object literal: its own keys in insertion order. *)
Definition record : Type := list (string * jsval).

Definition has_field (r : record) (k : string) : bool :=
  existsb (fun kv => String.eqb (fst kv) k) r.

Definition field (r : record) (k : string) : option jsval :=
  option_map snd (find (fun kv => String.eqb (fst kv) k) r).

(** A path as its segments; [path.join(dir, name)] appends a segment. *)
Definition path : Type := list string.

(** [fs.Dirent]s as [readdir(dir, {withFileTypes: true})] returns them, with
    the entries of each directory; [DOther] is any entry that is neither a
    regular file nor a directory (a symbolic link, a socket, ...). *)
Inductive dirent : Type :=
| DFile (name : string)
| DDir (name : string) (children : list dirent)
| DOther (name : string).

Definition dirent_name (e : dirent) : string :=
  match e with DFile n | DDir n _ | DOther n => n end.

Definition isDirectory (e : dirent) : bool :=
  match e with DDir _ _ => true | _ => false end.

(** [file.name.match(/\.(md|mdx)$/)] *)
Definition md_match (name : string) : bool :=
  endsWith name ".md" || endsWith name ".mdx".

(** One entry of the [for (const file of files)] loop of
    [#findMarkdownFiles] (lines 81-90): a directory whose name does not start
    with a dot is searched recursively, anything else is kept when its name
    matches. *)
Fixpoint findInEntry (dir : path) (e : dirent) {struct e} : list path :=
  let fullPath := dir ++ [dirent_name e] in
  match e with
  | DDir name children =>
      if negb (startsWith name ".")
      then (fix go (l : list dirent) : list path :=
              match l with
              | [] => []
              | x :: xs => findInEntry fullPath x ++ go xs
              end) children
      else if md_match name then [fullPath] else []
  | _ => if md_match (dirent_name e) then [fullPath] else []
  end.

(** [#findMarkdownFiles(dir)], given the entries [readdir] returns for
    [dir] (lines 77-93). *)
Definition findMarkdownFiles (dir : path) (entries : list dirent) : list path :=
  flat_map (findInEntry dir) entries.

(** [path.relative(from, to)] for normalized absolute paths. *)
Fixpoint relative_segs (from to : path) : list string :=
  match from, to with
  | f :: fs, t :: ts =>
      if String.eqb f t then relative_segs fs ts
      else map (fun _ => "..") from ++ to
  | _, _ => map (fun _ => "..") from ++ to
  end.

Definition relative (from to : path) : string :=
  String.concat "/" (relative_segs from to).

Definition basename (p : path) : string := last p EmptyString.

Fixpoint last_dot (i : nat) (s : string) : option nat :=
  match s with
  | EmptyString => None
  | String c r =>
      match last_dot (S i) r with
      | Some j => Some j
      | None => if Ascii.eqb c "."%char then Some i else None
      end
  end.

(** [path.extname(p)]: from the last dot of the base name, unless there is
    none, it is the name's first code unit, or the name is [".."]. *)
Definition extname (p : path) : string :=
  let b := basename p in
  if String.eqb b ".." then EmptyString
  else match last_dot 0 b with
       | None | Some 0 => EmptyString
       | Some i => String.substring i (String.length b - i) b
       end.

(** [s.substring(1)] *)
Definition substring1 (s : string) : string := drop 1 s.

(** [arr.slice(start, end)] for [0 <= start <= end]. *)
Definition slice {A} (l : list A) (start end_ : nat) : list A :=
  firstn (end_ - start) (skipn start l).

(** [Math.ceil(n / d)] for [d >= 1]. *)
Definition ceil_div (n d : nat) : nat := (n + d - 1) / d.

(** Console output of [run]. *)
Inductive msg : Type :=
| MProcessing (url : string)
| MNamespace (ns : string)
| MFound (n : nat)
| MProcessingFile (p : path)
| MStoring (n : nat)
| MBatch (k total : nat)
| MDone.

Inductive event : Type :=
| ELog (m : msg)
| EError (e : string)
| ERm (p : path)
| EClone (url : string) (p : path)
| EUpsert (batch : list record) (ns : string).

Record St : Type := mkSt {
  tmp_present : bool;
  upserts : nat;
  trace : list event }.

Inductive res (A : Type) : Type :=
| Ok (a : A)
| Err (e : string).
Arguments Ok {A} a.
Arguments Err {A} e.

Definition M (A : Type) : Type := St -> St * res A.

Definition ret {A} (a : A) : M A := fun s => (s, Ok a).
Definition throw {A} (e : string) : M A := fun s => (s, Err e).
Definition bind {A B} (m : M A) (k : A -> M B) : M B :=
  fun s => match m s with
           | (s', Ok a) => k a s'
           | (s', Err e) => (s', Err e)
           end.
(** [try { m } catch (e) { h(e) }] *)
Definition try_catch {A} (m : M A) (h : string -> M A) : M A :=
  fun s => match m s with
           | (s', Ok a) => (s', Ok a)
           | (s', Err e) => h e s'
           end.

Notation "x <- m ;; k" := (bind m (fun x => k))
  (at level 61, m at next level, right associativity).
Notation "m ;; k" := (bind m (fun _ => k)) (at level 61, right associativity).

Definition emit (ev : event) : M unit :=
  fun s => (mkSt (tmp_present s) (upserts s) (trace s ++ [ev]), Ok tt).
Definition log (m : msg) : M unit := emit (ELog m).

(** [await fs.rm(p, {recursive: true, force: true})]: never fails. *)
Definition rm (p : path) : M unit :=
  fun s => (mkSt false (upserts s) (trace s ++ [ERm p]), Ok tt).

(** The outside world of one run. *)
Record Env : Type := mkEnv {
  env_cwd : path;
  (** [git.clone(url, dir)]: [Some msg] when the clone is rejected *)
  env_clone : string -> option string;
  (** the entries of the cloned working copy *)
  env_tree : list dirent;
  (** [fs.readFile(p, 'utf-8')]: [None] when the read is rejected *)
  env_read : path -> option string;
  (** [this.embeddings]: absent without OPENAI_API_KEY; its
      [embedDocuments([text])] resolves to vectors or is rejected ([None]) *)
  env_embeddings : option (string -> option (list (list Z)));
  (** the store's answer to the [k]-th [index.upsert] call: [Some msg] when
      the call is rejected *)
  env_upsert : nat -> list record -> option string;
  (** [new Date().getTime()] *)
  env_time : nat }.

Section Run.
Variable env : Env.

Definition git_clone (url : string) (dir : path) : M unit :=
  fun s =>
    let s' := mkSt (tmp_present s) (upserts s) (trace s ++ [EClone url dir]) in
    match env_clone env url with
    | Some e => (s', Err e)
    | None => (mkSt true (upserts s') (trace s'), Ok tt)
    end.

(** [#cloneRepository(repoUrl)] (lines 63-74). *)
Definition cloneRepository (repoUrl : string) : M path :=
  let tempDir := env_cwd env ++ ["temp_repo"] in
  rm tempDir ;;
  git_clone repoUrl tempDir ;;
  ret tempDir.

Definition readFile (p : path) : M string :=
  match env_read env p with
  | Some c => ret c
  | None => throw "ENOENT"
  end.

(** The callback of [chunks.map] in [#processFile] (lines 104-123). *)
Definition processChunk (filePath : path) (relativePath : string) (chunk : string)
  : M record :=
  let base := [("id", JStr (Md5.generateId chunk));
               ("metadata", JObj [("fileName", JStr (basename filePath));
                                  ("filePath", JStr relativePath);
                                  ("fileType", JStr (substring1 (extname filePath)));
                                  ("timestamp", JNum (env_time env))])] in
  match env_embeddings env with
  | Some embedDocuments =>
      match embedDocuments chunk with
      | None => throw "embedding failed"
      | Some vs =>
          let vector := match vs with v :: _ => JArr v | [] => JUndefined end in
          ret (base ++ [("vector", vector); ("data", JStr chunk)])
      end
  | None => ret (base ++ [("data", JStr chunk)])
  end.

(** [Promise.all(chunks.map(...))]: all records, or the first rejection. *)
Fixpoint mapM_chunks (filePath : path) (relativePath : string) (chunks : list string)
  : M (list record) :=
  match chunks with
  | [] => ret []
  | c :: cs =>
      r <- processChunk filePath relativePath c ;;
      rs <- mapM_chunks filePath relativePath cs ;;
      ret (r :: rs)
  end.

(** [#processFile(filePath)] (lines 96-126). *)
Definition processFile (filePath : path) : M (list record) :=
  content <- readFile filePath ;;
  let relativePath := relative (env_cwd env) filePath in
  let chunks := TextSplitter.splitDocuments content in
  mapM_chunks filePath relativePath chunks.

(** The [for (const file of markdownFiles)] loop of [run] (lines 143-148). *)
Fixpoint processAll (files : list path) (allChunks : list record) : M (list record) :=
  match files with
  | [] => ret allChunks
  | f :: fs =>
      log (MProcessingFile f) ;;
      chunks <- processFile f ;;
      processAll fs (allChunks ++ chunks)
  end.

(** [await this.index.upsert(batch, {namespace})]: the call is issued (and
    counted) whether or not the store accepts it. *)
Definition upsert (batch : list record) (ns : string) : M unit :=
  fun s =>
    let k := upserts s in
    let s' := mkSt (tmp_present s) (S k) (trace s ++ [EUpsert batch ns]) in
    match env_upsert env k batch with
    | Some e => (s', Err e)
    | None => (s', Ok tt)
    end.

(** [for (let i = 0; i < allChunks.length; i += batchSize)] (lines 152-157),
    with the loop's iterations bounded by [fuel]; for [batchSize >= 1] the
    loop runs at most [allChunks.length] times, the fuel [run] gives. *)
Fixpoint upsertLoop (batchSize : nat) (ns : string) (allChunks : list record)
    (fuel i : nat) : M unit :=
  match fuel with
  | O => ret tt
  | S f =>
      if i <? List.length allChunks then
        let batch := slice allChunks i (i + batchSize) in
        upsert batch ns ;;
        log (MBatch (i / batchSize + 1) (ceil_div (List.length allChunks) batchSize)) ;;
        upsertLoop batchSize ns allChunks f (i + batchSize)
      else ret tt
  end.

Definition batchSize : nat := 100.

(** [run(repoUrl)] (lines 129-166). *)
Definition run (repoUrl : string) : M unit :=
  try_catch
    (log (MProcessing repoUrl) ;;
     let ns := Namespace.namespace_of repoUrl in
     log (MNamespace ns) ;;
     repoDir <- cloneRepository repoUrl ;;
     let markdownFiles := findMarkdownFiles repoDir (env_tree env) in
     log (MFound (List.length markdownFiles)) ;;
     allChunks <- processAll markdownFiles [] ;;
     log (MStoring (List.length allChunks)) ;;
     upsertLoop batchSize ns allChunks (List.length allChunks) 0 ;;
     rm repoDir ;;
     log MDone)
    (fun e => emit (EError e) ;; throw e).

End Run.

Definition st0 : St := mkSt false 0 [].

End Pipeline.

(** * Properties *)

Import Pipeline.

Import TextSplitter.

(** ** Vocabulary of the properties *)

(** A directory name [findMarkdownFiles] descends into. *)
Definition nondot (n : string) : Prop := JsString.startsWith n "." = false.

(** [e] is reached from the entries [es] through directories whose names do
    not start with a dot; [segs] is its path below [es]'s directory. *)
Inductive found_under : list dirent -> list string -> dirent -> Prop :=
| fu_here es e : In e es -> found_under es [dirent_name e] e
| fu_sub es name ch segs e :
    In (DDir name ch) es -> nondot name ->
    found_under ch segs e -> found_under es (name :: segs) e.

(** Induction over directory trees, with a hypothesis for every child of a
    directory. *)
Definition dirent_ind' (P : dirent -> Prop)
    (Hf : forall n, P (DFile n))
    (Hd : forall n ch, Forall P ch -> P (DDir n ch))
    (Ho : forall n, P (DOther n)) : forall e, P e :=
  fix f e :=
    match e with
    | DFile n => Hf n
    | DDir n ch =>
        Hd n ch ((fix g (l : list dirent) : Forall P l :=
                    match l with
                    | [] => Forall_nil P
                    | x :: xs => Forall_cons x (f x) (g xs)
                    end) ch)
    | DOther n => Ho n
    end.

(** A state invariant [I] kept by [m], and a property [Q] of the value [m]
    returns when it does not throw. *)
Definition triple {A} (I : St -> Prop) (m : M A) (Q : A -> Prop) : Prop :=
  forall s, I s -> I (fst (m s)) /\ forall a, snd (m s) = Ok a -> Q a.

(** The shape C8 speaks of: a [data] field, and a [vector] field exactly
    when an embedding provider is configured. *)
Definition shape_ok (env : Env) (r : record) : Prop :=
  has_field r "data" = true /\
  has_field r "vector" = match env_embeddings env with Some _ => true | None => false end.

(** Every record sent to the store so far has the shape [shape_ok]. *)
Definition upserts_ok (env : Env) (s : St) : Prop :=
  forall b ns r, In (EUpsert b ns) (trace s) -> In r b -> shape_ok env r.

(** The [j]-th batch: [allChunks.slice(j * batchSize, j * batchSize + batchSize)]. *)
Definition batch_of (bs : nat) (all : list record) (j : nat) : list record :=
  slice all (j * bs) (j * bs + bs).

(** What iteration [j] of the loop does when the store accepts the batch. *)
Definition batch_events (bs : nat) (ns : string) (all : list record) (j : nat) : list event :=
  [EUpsert (batch_of bs all j) ns; ELog (MBatch (j + 1) (ceil_div (List.length all) bs))].

(** The batches of the store calls in a trace, in call order. *)
Fixpoint upserted (tr : list event) : list (list record) :=
  match tr with
  | [] => []
  | EUpsert b _ :: r => b :: upserted r
  | _ :: r => upserted r
  end.

(** [m] leaves the working copy as it finds it. *)
Definition keeps_tmp {A} (m : M A) : Prop :=
  forall s, tmp_present (fst (m s)) = tmp_present s.

(** When [m] throws from a state in which the working copy is on disk, it is
    still on disk. *)
Definition fails_with_tmp {A} (m : M A) : Prop :=
  forall s s' e, tmp_present s = true -> m s = (s', Err e) -> tmp_present s' = true.

(** Strings of whitespace only. *)
Definition all_ws (s : string) : Prop :=
  forall p x, String.get p s = Some x -> is_ws x = true.

(** Non-empty and starting with a non-whitespace code unit. *)
Definition starts_nonws (s : string) : Prop :=
  match s with EmptyString => False | String c _ => is_ws c = false end.

(** Summed length of a list of strings. *)
Definition sumlen (l : list string) : nat := list_sum (map String.length l).

(** [c] occurs in [w] at offset [o]. *)
Definition occurs (w : string) (o : nat) (c : string) : Prop :=
  exists a b, w = String.append a (String.append c b) /\ String.length a = o.

(** Every non-whitespace code unit of [w] lies inside one of the located
    chunks of [L]. *)
Definition covered (w : string) (L : list (nat * string)) : Prop :=
  forall p x, String.get p w = Some x -> is_ws x = false ->
  exists o c, In (o, c) L /\ o <= p < o + String.length c.

(** Non-decreasing. *)
Fixpoint ordered (l : list nat) : Prop :=
  match l with
  | [] => True
  | x :: r => Forall (fun y => x <= y) r /\ ordered r
  end.

(** [L] locates chunks in [w], in document order, covering [w] up to
    whitespace. *)
Definition cover (w : string) (L : list (nat * string)) : Prop :=
  Forall (fun oc => occurs w (fst oc) (snd oc)) L /\ ordered (map fst L) /\ covered w L.

(** Located chunks moved [k] code units to the right. *)
Definition shift (k : nat) (L : list (nat * string)) : list (nat * string) :=
  map (fun oc => (k + fst oc, snd oc)) L.

(** The records [#processFile] returns for [f], or none when it throws. *)
Definition file_records (env : Env) (f : path) : list record :=
  match snd (processFile env f st0) with Ok rs => rs | Err _ => [] end.

(** Every state in which [m] returns normally satisfies [P]. *)
Definition ok_post {A} (P : St -> Prop) (m : M A) : Prop :=
  forall s, match m s with (s', Ok _) => P s' | _ => True end.

(** Every store call in the trace so far names the namespace [N]. *)
Definition ns_only (N : string) (s : St) : Prop :=
  forall b ns, In (EUpsert b ns) (trace s) -> ns = N.

(** The names of the entries of each directory are distinct, as those
    [readdir] returns. *)
Inductive uniq_names : list dirent -> Prop :=
| un_intro es :
    NoDup (map dirent_name es) ->
    (forall n ch, In (DDir n ch) es -> uniq_names ch) ->
    uniq_names es.

(** ** Namespace *)

(** C2: the namespace of a repository whose final segment contains ".git"
    before its end is not that segment with a trailing ".git" stripped:
    [replace('.git', '')] removes the first occurrence, wherever it is. *)
Lemma namespace_replaces_first_occurrence :
  Namespace.namespace_of "https://github.com/user/user.github.io" = "userhub.io" /\
  Namespace.namespace_spec "https://github.com/user/user.github.io" = "user.github.io".
Proof. split; reflexivity. Qed.

(** ** File discovery *)

Lemma findInEntry_dir dir name ch :
  findInEntry dir (DDir name ch) =
  if negb (JsString.startsWith name ".")
  then flat_map (findInEntry (dir ++ [name])) ch
  else if md_match name then [dir ++ [name]] else [].
Proof.
  simpl. destruct (negb _); [|reflexivity].
  induction ch as [|x xs IH]; simpl; [reflexivity|]. now rewrite IH.
Qed.

Lemma findInEntry_leaf dir e :
  isDirectory e = false ->
  findInEntry dir e = if md_match (dirent_name e) then [dir ++ [dirent_name e]] else [].
Proof. destruct e; simpl; easy. Qed.

Lemma removelast_cons_ne {A} (x : A) l : l <> [] -> removelast (x :: l) = x :: removelast l.
Proof. destruct l; [congruence|reflexivity]. Qed.

(** Every path found below [dir] is [dir] followed by a non-empty list of
    segments, all of which but the last name directories not starting with a
    dot. *)
Lemma findInEntry_sound e : forall dir p,
  In p (findInEntry dir e) ->
  exists segs, p = dir ++ segs /\ segs <> [] /\ Forall nondot (removelast segs).
Proof.
  induction e as [n|n ch IH|n] using dirent_ind'; intros dir p Hin.
  - rewrite findInEntry_leaf in Hin by reflexivity. simpl in Hin.
    destruct (md_match n); [|contradiction].
    destruct Hin as [<-|[]]. exists [n]. repeat split; [discriminate|constructor].
  - rewrite findInEntry_dir in Hin.
    destruct (JsString.startsWith n ".") eqn:Hd; simpl in Hin.
    + destruct (md_match n); [|contradiction].
      destruct Hin as [<-|[]]. exists [n]. repeat split; [discriminate|constructor].
    + apply in_flat_map in Hin as [x [Hx Hp]].
      rewrite Forall_forall in IH.
      destruct (IH x Hx _ _ Hp) as [segs [-> [Hne Hf]]].
      exists (n :: segs). rewrite <- app_assoc. repeat split; [discriminate|].
      rewrite removelast_cons_ne by exact Hne. now constructor.
  - rewrite findInEntry_leaf in Hin by reflexivity. simpl in Hin.
    destruct (md_match n); [|contradiction].
    destruct Hin as [<-|[]]. exists [n]. repeat split; [discriminate|constructor].
Qed.

Lemma findMarkdownFiles_sound dir es p :
  In p (findMarkdownFiles dir es) ->
  exists segs, p = dir ++ segs /\ segs <> [] /\ Forall nondot (removelast segs).
Proof.
  unfold findMarkdownFiles. intros Hin.
  apply in_flat_map in Hin as [e [_ Hp]]. eapply findInEntry_sound; eauto.
Qed.

Lemma findMarkdownFiles_complete es segs e :
  found_under es segs e -> forall dir,
  isDirectory e = false -> md_match (dirent_name e) = true ->
  In (dir ++ segs) (findMarkdownFiles dir es).
Proof.
  induction 1 as [es e Hin|es name ch segs e Hin Hnd Hfu IH];
    intros dir Hdir Hmd; unfold findMarkdownFiles; apply in_flat_map.
  - exists e. split; [exact Hin|].
    rewrite findInEntry_leaf by exact Hdir. rewrite Hmd. now left.
  - exists (DDir name ch). split; [exact Hin|].
    rewrite findInEntry_dir. unfold nondot in Hnd. rewrite Hnd. simpl.
    replace (dir ++ name :: segs) with ((dir ++ [name]) ++ segs)
      by now rewrite <- app_assoc.
    now apply IH.
Qed.

(** C9: [#findMarkdownFiles] never descends into a directory whose name
    starts with a dot (no returned path lies below one) and descends into
    every other directory: each matching non-directory entry reached through
    directories not starting with a dot is returned. *)
Theorem findMarkdownFiles_skips_dot_directories :
  forall dir es,
  (forall p, In p (findMarkdownFiles dir es) ->
     exists segs, p = dir ++ segs /\ segs <> [] /\ Forall nondot (removelast segs)) /\
  (forall segs e, found_under es segs e ->
     isDirectory e = false -> md_match (dirent_name e) = true ->
     In (dir ++ segs) (findMarkdownFiles dir es)).
Proof.
  intros dir es. split.
  - apply findMarkdownFiles_sound.
  - intros segs e Hfu. now apply findMarkdownFiles_complete.
Qed.

Lemma findMarkdownFiles_skips_dot_directories_witness :
  let es := [DDir ".git" [DFile "HEAD.md"]; DDir "docs" [DFile "a.md"]; DFile "README.md"] in
  findMarkdownFiles ["r"] es = [["r"; "docs"; "a.md"]; ["r"; "README.md"]] /\
  found_under es ["docs"; "a.md"] (DFile "a.md") /\
  In (["r"] ++ ["docs"; "a.md"]) (findMarkdownFiles ["r"] es).
Proof.
  intros es.
  assert (Hfu : found_under es ["docs"; "a.md"] (DFile "a.md")).
  { apply fu_sub with (ch := [DFile "a.md"]); [right; now left|reflexivity|].
    apply (fu_here [DFile "a.md"] (DFile "a.md")). now left. }
  split; [vm_compute; reflexivity|]. split; [exact Hfu|].
  exact (proj2 (findMarkdownFiles_skips_dot_directories ["r"] es) _ _ Hfu eq_refl eq_refl).
Defined.

(** C10: the name test of the [else if] branch also accepts directories: a
    directory named like a Markdown file is returned as a file exactly when
    its name starts with a dot (a directory without a dot is searched
    instead). *)
Theorem findMarkdownFiles_returns_dot_directory :
  (exists es name ch,
     In (DDir name ch) es /\ md_match name = true /\
     In ([] ++ [name]) (findMarkdownFiles [] es)) /\
  (forall dir name ch, md_match name = true ->
     In (dir ++ [name]) (findInEntry dir (DDir name ch)) <->
     JsString.startsWith name "." = true).
Proof.
  split.
  - exists [DDir ".notes.md" [DFile "a.md"]], ".notes.md", [DFile "a.md"].
    split; [now left|]. split; reflexivity || (vm_compute; now left).
  - intros dir name ch Hmd. rewrite findInEntry_dir.
    destruct (JsString.startsWith name ".") eqn:Hd; simpl.
    + rewrite Hmd. split; [reflexivity|now left].
    + split; [|discriminate]. intros Hin.
      apply in_flat_map in Hin as [x [_ Hp]].
      destruct (findInEntry_sound x _ _ Hp) as [segs [Heq [Hne _]]].
      rewrite <- app_assoc in Heq. apply app_inv_head in Heq.
      destruct segs; [contradiction|discriminate].
Qed.

(** ** Reasoning about the monad with [triple] *)

Lemma triple_ret {A} I (a : A) (Q : A -> Prop) : Q a -> triple I (ret a) Q.
Proof. intros HQ s Hs. split; [exact Hs|]. intros a' [= <-]. exact HQ. Qed.

Lemma triple_throw {A} I e (Q : A -> Prop) : triple I (throw e) Q.
Proof. intros s Hs. split; [exact Hs|]. discriminate. Qed.

Lemma triple_bind {A B} I (m : M A) (k : A -> M B) Q R :
  triple I m Q -> (forall a, Q a -> triple I (k a) R) -> triple I (bind m k) R.
Proof.
  intros Hm Hk s Hs. unfold bind.
  destruct (Hm s Hs) as [Hs' HQ]. destruct (m s) as [s' [a|e]]; simpl in *.
  - exact (Hk a (HQ a eq_refl) s' Hs').
  - split; [exact Hs'|discriminate].
Qed.

Lemma triple_try {A} I (m : M A) h Q :
  triple I m Q -> (forall e, triple I (h e) Q) -> triple I (try_catch m h) Q.
Proof.
  intros Hm Hh s Hs. unfold try_catch.
  destruct (Hm s Hs) as [Hs' HQ]. destruct (m s) as [s' [a|e]]; simpl in *.
  - split; [exact Hs'|]. intros a' [= <-]. now apply HQ.
  - exact (Hh e s' Hs').
Qed.

Lemma triple_weaken {A} I (m : M A) (Q Q' : A -> Prop) :
  triple I m Q -> (forall a, Q a -> Q' a) -> triple I m Q'.
Proof. intros Hm HQ s Hs. destruct (Hm s Hs) as [H1 H2]. split; auto. Qed.

(** ** Shape of the chunk records *)

Lemma upserts_ok_app env s evs :
  upserts_ok env s ->
  (forall b ns r, In (EUpsert b ns) evs -> In r b -> shape_ok env r) ->
  forall s', trace s' = trace s ++ evs -> upserts_ok env s'.
Proof.
  intros Hs Hevs s' Ht b ns r Hin Hr. rewrite Ht in Hin.
  apply in_app_or in Hin as [Hin|Hin]; eauto.
Qed.

Ltac not_upsert := intros ? ? ? [Hx|[]]; discriminate Hx.

Lemma triple_log env m : triple (upserts_ok env) (log m) (fun _ => True).
Proof.
  intros s Hs. split; [|auto].
  eapply upserts_ok_app; [exact Hs| |reflexivity]. not_upsert.
Qed.

Lemma triple_emit_error env e : triple (upserts_ok env) (emit (EError e)) (fun _ => True).
Proof.
  intros s Hs. split; [|auto].
  eapply upserts_ok_app; [exact Hs| |reflexivity]. not_upsert.
Qed.

Lemma triple_rm env p : triple (upserts_ok env) (rm p) (fun _ => True).
Proof.
  intros s Hs. split; [|auto].
  eapply upserts_ok_app; [exact Hs| |reflexivity]. not_upsert.
Qed.

Lemma triple_clone env url : triple (upserts_ok env) (cloneRepository env url) (fun _ => True).
Proof.
  unfold cloneRepository. eapply triple_bind; [apply triple_rm|]. intros _ _.
  apply triple_bind with (Q := fun _ => True); [|intros; apply triple_ret; exact I].
  intros s Hs. unfold git_clone. split; [|auto].
  destruct (env_clone env url); simpl;
    (eapply upserts_ok_app; [exact Hs| |reflexivity]; not_upsert).
Qed.

Lemma processChunk_shape env I fp rp c :
  triple I (processChunk env fp rp c) (shape_ok env).
Proof.
  unfold processChunk. destruct (env_embeddings env) as [f|] eqn:He.
  - destruct (f c) as [vs|].
    + apply triple_ret. unfold shape_ok. rewrite He. split; reflexivity.
    + apply triple_throw.
  - apply triple_ret. unfold shape_ok. rewrite He. split; reflexivity.
Qed.

Lemma mapM_chunks_shape env I fp rp cs :
  triple I (mapM_chunks env fp rp cs) (Forall (shape_ok env)).
Proof.
  induction cs as [|c cs IH]; simpl.
  - apply triple_ret. constructor.
  - eapply triple_bind; [apply processChunk_shape|]. intros r Hr.
    eapply triple_bind; [exact IH|]. intros rs Hrs.
    apply triple_ret. now constructor.
Qed.

Lemma processFile_shape env Inv f :
  triple Inv (processFile env f) (Forall (shape_ok env)).
Proof.
  unfold processFile, readFile. destruct (env_read env f).
  - eapply triple_bind; [apply triple_ret with (Q := fun _ => True); exact I|].
    intros. apply mapM_chunks_shape.
  - eapply triple_bind; [apply triple_throw with (Q := fun _ => True)|]. intros.
    apply mapM_chunks_shape.
Qed.

Lemma processAll_shape env files : forall acc,
  Forall (shape_ok env) acc ->
  triple (upserts_ok env) (processAll env files acc) (Forall (shape_ok env)).
Proof.
  induction files as [|f fs IH]; intros acc Hacc; simpl.
  - now apply triple_ret.
  - eapply triple_bind; [apply triple_log|]. intros _ _.
    eapply triple_bind; [apply processFile_shape|]. intros chunks Hc.
    apply IH. now apply Forall_app.
Qed.

Lemma in_firstn {A} n (l : list A) x : In x (firstn n l) -> In x l.
Proof. intros H. rewrite <- (firstn_skipn n l). apply in_or_app. now left. Qed.

Lemma in_skipn {A} n (l : list A) x : In x (skipn n l) -> In x l.
Proof. intros H. rewrite <- (firstn_skipn n l). apply in_or_app. now right. Qed.

Lemma in_slice {A} (l : list A) i j x : In x (slice l i j) -> In x l.
Proof. unfold slice. intros H. eapply in_skipn, in_firstn, H. Qed.

Lemma triple_upsert env b ns :
  Forall (shape_ok env) b -> triple (upserts_ok env) (upsert env b ns) (fun _ => True).
Proof.
  intros Hb s Hs. unfold upsert. split; [|auto].
  assert (Hn : forall b' ns' r, In (EUpsert b' ns') [EUpsert b ns] -> In r b' -> shape_ok env r).
  { intros b' ns' r [[= <- <-]|[]] Hr. rewrite Forall_forall in Hb. auto. }
  destruct (env_upsert env (upserts s) b); simpl;
    (eapply upserts_ok_app; [exact Hs|exact Hn|reflexivity]).
Qed.

Lemma upsertLoop_shape env bs ns all :
  Forall (shape_ok env) all -> forall fuel i,
  triple (upserts_ok env) (upsertLoop env bs ns all fuel i) (fun _ => True).
Proof.
  intros Hall fuel. induction fuel as [|f IH]; intros i; simpl.
  - now apply triple_ret.
  - destruct (i <? List.length all).
    + eapply triple_bind; [apply triple_upsert|].
      * rewrite Forall_forall in *. intros x Hx. apply Hall. eapply in_slice, Hx.
      * intros _ _. eapply triple_bind; [apply triple_log|]. intros _ _. apply IH.
    + now apply triple_ret.
Qed.

Lemma run_shape env url : triple (upserts_ok env) (run env url) (fun _ => True).
Proof.
  unfold run. apply triple_try.
  - eapply triple_bind; [apply triple_log|]. intros _ _.
    eapply triple_bind; [apply triple_log|]. intros _ _.
    eapply triple_bind; [apply triple_clone|]. intros repoDir _.
    eapply triple_bind; [apply triple_log|]. intros _ _.
    eapply triple_bind; [apply processAll_shape; constructor|]. intros all Hall.
    eapply triple_bind; [apply triple_log|]. intros _ _.
    eapply triple_bind; [apply upsertLoop_shape, Hall|]. intros _ _.
    eapply triple_bind; [apply triple_rm|]. intros _ _. apply triple_log.
  - intros e. eapply triple_bind; [apply triple_emit_error|]. intros _ _.
    apply triple_throw.
Qed.

(** C8: every record [#processFile] produces has a [data] field, and has a
    [vector] field exactly when an embedding provider is configured; so every
    record [run] hands to the store in one run has that one shape. *)
Theorem chunk_records_shape :
  forall env,
  (forall f s recs, snd (processFile env f s) = Ok recs ->
     Forall (shape_ok env) recs) /\
  (forall url b ns r,
     In (EUpsert b ns) (trace (fst (run env url st0))) -> In r b -> shape_ok env r).
Proof.
  intros env. split.
  - intros f s recs H.
    exact (proj2 (processFile_shape env (fun _ => True) f s I) recs H).
  - intros url b ns r Hin Hr.
    assert (H0 : upserts_ok env st0) by (intros ? ? ? []).
    exact (proj1 (run_shape env url st0 H0) b ns r Hin Hr).
Qed.

Lemma chunk_records_shape_witness :
  let env := mkEnv ["w"] (fun _ => None) [DFile "README.md"]
               (fun _ => Some "hello world") (Some (fun _ => Some [[1%Z; 2%Z]]))
               (fun _ _ => None) 0 in
  let p := ["w"; "temp_repo"; "README.md"] in
  exists recs, snd (processFile env p st0) = Ok recs /\ List.length recs = 1 /\
               Forall (shape_ok env) recs.
Proof.
  intros env p. destruct (snd (processFile env p st0)) as [recs|e] eqn:E.
  - exists recs. split; [reflexivity|]. split.
    + vm_compute in E. injection E as <-. reflexivity.
    + exact (proj1 (chunk_records_shape env) p st0 recs E).
  - vm_compute in E. discriminate E.
Defined.

(** ** The batch upsert loop *)

Lemma ceil_div_lt_iff n bs j : 1 <= bs -> (j < ceil_div n bs <-> j * bs < n).
Proof.
  intros Hbs. unfold ceil_div. split; intros H.
  - destruct (Nat.lt_ge_cases (j * bs) n) as [|Hge]; [assumption|exfalso].
    assert (Hlt : (n + bs - 1) / bs < j + 1).
    { apply Nat.Div0.div_lt_upper_bound. nia. }
    lia.
  - assert (j + 1 <= (n + bs - 1) / bs); [|lia].
    apply Nat.div_le_lower_bound; [lia|nia].
Qed.

Lemma ceil_div_le n bs : 1 <= bs -> ceil_div n bs <= n.
Proof.
  intros Hbs. unfold ceil_div.
  assert ((n + bs - 1) / bs < n + 1); [|lia].
  apply Nat.Div0.div_lt_upper_bound. nia.
Qed.

Lemma mul_div_same j bs : 1 <= bs -> j * bs / bs = j.
Proof. intros Hbs. apply Nat.div_mul. lia. Qed.

Lemma st_eta s : mkSt (tmp_present s) (upserts s + 0) (trace s ++ []) = s.
Proof. destruct s; simpl. now rewrite Nat.add_0_r, app_nil_r. Qed.

Section BatchLoop.
Variables (env : Env) (bs : nat) (ns : string) (all : list record).
Hypothesis Hbs : 1 <= bs.

Local Abbreviation c := (ceil_div (List.length all) bs).

Lemma upsertLoop_step fuel j s :
  j * bs < List.length all ->
  upsertLoop env bs ns all (S fuel) (j * bs) s =
  match env_upsert env (upserts s) (batch_of bs all j) with
  | Some e => (mkSt (tmp_present s) (S (upserts s)) (trace s ++ [EUpsert (batch_of bs all j) ns]), Err e)
  | None =>
      upsertLoop env bs ns all fuel (S j * bs)
        (mkSt (tmp_present s) (S (upserts s)) (trace s ++ batch_events bs ns all j))
  end.
Proof.
  intros Hj. simpl upsertLoop. rewrite (proj2 (Nat.ltb_lt _ _) Hj).
  unfold bind, upsert, log, emit, batch_of.
  destruct (env_upsert env (upserts s) (slice all (j * bs) (j * bs + bs))); [reflexivity|].
  simpl. rewrite mul_div_same by exact Hbs.
  replace (j * bs + bs) with (bs + j * bs) by lia.
  unfold batch_events, batch_of. now rewrite <- app_assoc, Nat.add_comm.
Qed.

Lemma upsertLoop_past_end fuel j s :
  List.length all <= j * bs -> upsertLoop env bs ns all fuel (j * bs) s = (s, Ok tt).
Proof.
  intros Hj. destruct fuel; simpl; [reflexivity|].
  replace (j * bs <? List.length all) with false; [reflexivity|].
  symmetry. apply Nat.ltb_ge. exact Hj.
Qed.

(** With a store that accepts every call, the loop from batch [j] on issues
    the calls [j .. c - 1], each followed by its progress line. *)
Lemma upsertLoop_accepting :
  (forall k b, env_upsert env k b = None) ->
  forall fuel j s, c - j <= fuel ->
  upsertLoop env bs ns all fuel (j * bs) s =
  (mkSt (tmp_present s) (upserts s + (c - j))
        (trace s ++ flat_map (batch_events bs ns all) (seq j (c - j))), Ok tt).
Proof.
  intros Hacc fuel. induction fuel as [|f IH]; intros j s Hf.
  - replace (c - j) with 0 by lia. simpl. now rewrite st_eta.
  - destruct (Nat.lt_ge_cases (j * bs) (List.length all)) as [Hj|Hj].
    + assert (Hjc : j < c) by (apply ceil_div_lt_iff; assumption).
      rewrite upsertLoop_step by exact Hj. rewrite Hacc.
      rewrite IH by lia. simpl.
      replace (c - j) with (S (c - S j)) by lia. simpl.
      f_equal. f_equal; [lia|]. now rewrite <- app_assoc.
    + assert (Hjc : c <= j).
      { destruct (Nat.lt_ge_cases j c) as [Hlt|]; [|assumption].
        apply ceil_div_lt_iff in Hlt; [lia|exact Hbs]. }
      rewrite upsertLoop_past_end by exact Hj.
      replace (c - j) with 0 by lia. simpl. now rewrite st_eta.
Qed.

(** When the store rejects call [k] (the calls before it being accepted), the
    loop from batch [j] stops right after that call with the store's error. *)
Lemma upsertLoop_rejecting k e :
  k < c ->
  forall fuel j s, c - j <= fuel -> j <= k ->
  (forall i, j <= i < k -> env_upsert env (upserts s + (i - j)) (batch_of bs all i) = None) ->
  env_upsert env (upserts s + (k - j)) (batch_of bs all k) = Some e ->
  upsertLoop env bs ns all fuel (j * bs) s =
  (mkSt (tmp_present s) (upserts s + S (k - j))
        (trace s ++ flat_map (batch_events bs ns all) (seq j (k - j))
                 ++ [EUpsert (batch_of bs all k) ns]), Err e).
Proof.
  intros Hk fuel. induction fuel as [|f IH]; intros j s Hf Hjk Hok Hrej; [lia|].
  assert (Hj : j * bs < List.length all).
  { apply ceil_div_lt_iff; [exact Hbs|lia]. }
  rewrite upsertLoop_step by exact Hj.
  destruct (Nat.eq_dec j k) as [->|Hne].
  - rewrite Nat.sub_diag, Nat.add_0_r in Hrej. rewrite Hrej.
    rewrite Nat.sub_diag. simpl. f_equal. f_equal. lia.
  - assert (Hj0 := Hok j ltac:(lia)). rewrite Nat.sub_diag, Nat.add_0_r in Hj0.
    rewrite Hj0. rewrite IH; [| lia | lia | | ].
    + simpl. replace (k - j) with (S (k - S j)) by lia. simpl.
      f_equal. f_equal; [lia|]. unfold batch_events. now rewrite <- app_assoc.
    + intros i Hi. simpl. replace (S (upserts s + (i - S j))) with (upserts s + (i - j)) by lia.
      apply Hok. lia.
    + simpl. replace (S (upserts s + (k - S j))) with (upserts s + (k - j)) by lia.
      exact Hrej.
Qed.

End BatchLoop.

Lemma upserted_app tr1 tr2 : upserted (tr1 ++ tr2) = upserted tr1 ++ upserted tr2.
Proof.
  induction tr1 as [|[] tr IH]; simpl; rewrite ?IH; reflexivity.
Qed.

Lemma upserted_batch_events bs ns all l :
  upserted (flat_map (batch_events bs ns all) l) = map (batch_of bs all) l.
Proof.
  induction l as [|j l IH]; simpl; [reflexivity|]. now rewrite IH.
Qed.

Lemma firstn_add {A} a b (l : list A) :
  firstn (a + b) l = firstn a l ++ firstn b (skipn a l).
Proof.
  revert l. induction a as [|a IH]; intros l; simpl; [reflexivity|].
  destruct l; simpl; [now rewrite firstn_nil|]. now rewrite IH.
Qed.

Lemma concat_batches bs all m : forall j,
  concat (map (batch_of bs all) (seq j m)) = firstn (m * bs) (skipn (j * bs) all).
Proof.
  induction m as [|m IH]; intros j; simpl; [reflexivity|].
  rewrite IH. unfold batch_of, slice.
  replace (j * bs + bs - j * bs) with bs by lia.
  rewrite firstn_add, skipn_skipn. do 2 f_equal; try lia.
Qed.

Lemma length_batch_of bs all j :
  List.length (batch_of bs all j) = Nat.min bs (List.length all - j * bs).
Proof.
  unfold batch_of, slice. rewrite length_firstn, length_skipn.
  f_equal. lia.
Qed.

Lemma last_nth_pred {A} (l : list A) d : last l d = nth (List.length l - 1) l d.
Proof.
  induction l as [|x l IH]; [reflexivity|].
  destruct l as [|y l]; [reflexivity|].
  change (last (y :: l) d = nth (List.length (x :: y :: l) - 1) (x :: y :: l) d).
  rewrite IH. cbn. now rewrite Nat.sub_0_r.
Qed.

Lemma ceil_div_mod n bs :
  1 <= bs ->
  ceil_div n bs = n / bs + (if n mod bs =? 0 then 0 else 1).
Proof.
  intros Hbs. pose proof (Nat.div_mod n bs ltac:(lia)) as Hn.
  pose proof (Nat.mod_upper_bound n bs ltac:(lia)) as Hr.
  unfold ceil_div. symmetry. apply Nat.div_unique with
    (r := if n mod bs =? 0 then bs - 1 else n mod bs - 1).
  - destruct (n mod bs =? 0); lia.
  - destruct (n mod bs =? 0) eqn:E; [apply Nat.eqb_eq in E|apply Nat.eqb_neq in E]; nia.
Qed.

Lemma last_batch_size_arith n bs q r :
  1 <= bs -> 1 <= n -> n = bs * q + r -> r < bs ->
  Nat.min bs (n - (q + (if r =? 0 then 0 else 1) - 1) * bs) = (if r =? 0 then bs else r).
Proof.
  intros Hbs Hn Hd Hr. subst n.
  destruct (r =? 0) eqn:E; [apply Nat.eqb_eq in E|apply Nat.eqb_neq in E].
  - subst r. destruct q as [|q]; [lia|].
    replace (S q + 0 - 1) with q by lia. rewrite Nat.mul_succ_r. nia.
  - replace (q + 1 - 1) with q by lia. nia.
Qed.

(** C3: with a store that accepts every call, the loop over [n >= 1] chunks
    issues exactly [ceil(n / batchSize)] store calls; call [j] carries the
    slice [j * batchSize .. j * batchSize + batchSize - 1], every call but
    the last carries [batchSize] records, the last carries [n mod batchSize]
    of them ([batchSize] when that is 0), and the batches concatenated in
    call order are the chunk list. *)
Theorem upsertLoop_partitions :
  forall env bs ns all s,
  1 <= bs -> 1 <= List.length all -> (forall k b, env_upsert env k b = None) ->
  let r := upsertLoop env bs ns all (List.length all) 0 s in
  let B := upserted (skipn (List.length (trace s)) (trace (fst r))) in
  snd r = Ok tt /\
  upserts (fst r) = upserts s + List.length B /\
  List.length B = ceil_div (List.length all) bs /\
  (forall j, j < List.length B -> nth j B [] = slice all (j * bs) (j * bs + bs)) /\
  (forall j, S j < List.length B -> List.length (nth j B []) = bs) /\
  List.length (last B []) =
    (if List.length all mod bs =? 0 then bs else List.length all mod bs) /\
  concat B = all.
Proof.
  intros env bs ns all s Hbs Hn Hacc r B.
  set (n := List.length all) in *. set (c := ceil_div n bs).
  assert (Hr : r = (mkSt (tmp_present s) (upserts s + c)
                     (trace s ++ flat_map (batch_events bs ns all) (seq 0 c)), Ok tt)).
  { pose proof (ceil_div_le n bs Hbs).
    pose proof (upsertLoop_accepting env bs ns all Hbs Hacc n 0 s) as Hl.
    rewrite Nat.mul_0_l, Nat.sub_0_r in Hl. unfold r. apply Hl. unfold c, n in *. lia. }
  assert (HB : B = map (batch_of bs all) (seq 0 c)).
  { unfold B. rewrite Hr. simpl. rewrite skipn_app, skipn_all, Nat.sub_diag. simpl.
    apply upserted_batch_events. }
  assert (HlB : List.length B = c) by (rewrite HB; now rewrite length_map, length_seq).
  assert (Hc1 : 1 <= c) by (apply ceil_div_lt_iff; [exact Hbs|lia]).
  rewrite Hr. simpl. rewrite HlB.
  repeat split.
  - intros j Hj. rewrite HB. rewrite nth_indep with (d' := batch_of bs all 0)
      by (rewrite length_map, length_seq; lia).
    rewrite map_nth, seq_nth by lia. reflexivity.
  - intros j Hj. rewrite HB. rewrite nth_indep with (d' := batch_of bs all 0)
      by (rewrite length_map, length_seq; lia).
    rewrite map_nth, seq_nth by lia. rewrite length_batch_of.
    assert (S j * bs < n) by (apply ceil_div_lt_iff; [exact Hbs|lia]). lia.
  - rewrite last_nth_pred, HlB, HB.
    rewrite nth_indep with (d' := batch_of bs all 0)
      by (rewrite length_map, length_seq; lia).
    rewrite map_nth, seq_nth by lia. rewrite length_batch_of. simpl.
    unfold c in *. rewrite ceil_div_mod in * by exact Hbs.
    pose proof (Nat.div_mod n bs ltac:(lia)) as Hd.
    pose proof (Nat.mod_upper_bound n bs ltac:(lia)) as Hm.
    change (Datatypes.length all) with n.
    apply last_batch_size_arith; assumption.
  - rewrite HB, concat_batches. simpl. apply firstn_all2.
    change (Datatypes.length all) with n.
    unfold c. rewrite ceil_div_mod by exact Hbs.
    pose proof (Nat.div_mod n bs ltac:(lia)) as Hd.
    pose proof (Nat.mod_upper_bound n bs ltac:(lia)) as Hm.
    revert Hd Hm. generalize (n / bs) (n mod bs). intros q rm Hd Hm.
    destruct (rm =? 0) eqn:E; [apply Nat.eqb_eq in E|apply Nat.eqb_neq in E]; nia.
Qed.

Lemma upsertLoop_partitions_witness :
  let env := mkEnv [] (fun _ => None) [] (fun _ => None) None (fun _ _ => None) 0 in
  let all := repeat [("data", JStr "x")] 250 in
  let B := upserted (skipn (List.length (trace st0))
             (trace (fst (upsertLoop env 100 "docs" all (List.length all) 0 st0)))) in
  (1 <= 100 /\ 1 <= List.length all) /\
  (List.length B = ceil_div (List.length all) 100 /\ concat B = all) /\
  map (@List.length record) B = [100; 100; 50].
Proof.
  intros env all B.
  assert (Hn : 1 <= List.length all) by (unfold all; rewrite repeat_length; lia).
  pose proof (upsertLoop_partitions env 100 "docs" all st0 ltac:(lia) Hn
                (fun _ _ => eq_refl)) as H.
  cbv zeta in H. destruct H as (_ & _ & HlB & _ & _ & _ & Hc).
  split; [split; [lia | exact Hn]|]. split; [split; [exact HlB | exact Hc]|].
  vm_compute. reflexivity.
Defined.

(** C4: when the store accepts the calls [0 .. k - 1] and rejects call [k]
    (with [k] below the number of batches), the loop issues exactly the calls
    [0 .. k] (so batches [k + 1 ..] are never sent), issues nothing after the
    rejected call, leaves the earlier batches as they are, and ends with the
    store's error. *)
Theorem upsertLoop_stops_at_rejected_batch :
  forall env bs ns all s k e,
  1 <= bs -> k < ceil_div (List.length all) bs ->
  (forall j, j < k -> env_upsert env (upserts s + j) (batch_of bs all j) = None) ->
  env_upsert env (upserts s + k) (batch_of bs all k) = Some e ->
  upsertLoop env bs ns all (List.length all) 0 s =
  (mkSt (tmp_present s) (upserts s + S k)
        (trace s ++ flat_map (batch_events bs ns all) (seq 0 k)
                 ++ [EUpsert (batch_of bs all k) ns]), Err e).
Proof.
  intros env bs ns all s k e Hbs Hk Hok Hrej.
  pose proof (ceil_div_le (List.length all) bs Hbs).
  pose proof (upsertLoop_rejecting env bs ns all Hbs k e Hk (List.length all) 0 s)
    as Hl.
  rewrite Nat.mul_0_l, !Nat.sub_0_r in Hl. apply Hl.
  - lia.
  - lia.
  - intros i Hi. rewrite Nat.sub_0_r. apply Hok. lia.
  - exact Hrej.
Qed.

Lemma upsertLoop_stops_at_rejected_batch_witness :
  let env := mkEnv [] (fun _ => None) [] (fun _ => None) None
               (fun k _ => if Nat.eqb k 1 then Some "rate limited" else None) 0 in
  let all := repeat [("data", JStr "x")] 250 in
  let r := upsertLoop env 100 "docs" all (List.length all) 0 st0 in
  (1 <= 100 /\ 1 < ceil_div (List.length all) 100) /\
  r = (mkSt false 2 (flat_map (batch_events 100 "docs" all) (seq 0 1)
                     ++ [EUpsert (batch_of 100 all 1) "docs"]), Err "rate limited") /\
  map (@List.length record) (upserted (trace (fst r))) = [100; 100] /\
  snd r = Err "rate limited".
Proof.
  intros env all r.
  assert (Hk : 1 < ceil_div (List.length all) 100) by (vm_compute; lia).
  assert (Hok : forall j, j < 1 ->
            env_upsert env (upserts st0 + j) (batch_of 100 all j) = None)
    by (intros [|j] Hj; [reflexivity | lia]).
  assert (Hr := upsertLoop_stops_at_rejected_batch env 100 "docs" all st0 1 "rate limited"
                  ltac:(lia) Hk Hok eq_refl).
  split; [split; [lia | exact Hk]|].
  split; [exact Hr|].
  split; vm_compute; reflexivity.
Defined.

(** ** Cleanup of the working copy *)

Lemma keeps_ret {A} (a : A) : keeps_tmp (ret a).
Proof. intros s. reflexivity. Qed.
Lemma keeps_throw {A} e : keeps_tmp (@throw A e).
Proof. intros s. reflexivity. Qed.
Lemma keeps_emit ev : keeps_tmp (emit ev).
Proof. intros s. reflexivity. Qed.
Lemma keeps_bind {A B} (m : M A) (k : A -> M B) :
  keeps_tmp m -> (forall a, keeps_tmp (k a)) -> keeps_tmp (bind m k).
Proof.
  intros Hm Hk s. specialize (Hm s). unfold bind.
  destruct (m s) as [s' [a|e]]; simpl in *; [rewrite Hk|]; exact Hm.
Qed.
Create HintDb keeps.
Hint Resolve keeps_ret keeps_throw keeps_emit keeps_bind : keeps.

Lemma keeps_upsert env b ns : keeps_tmp (upsert env b ns).
Proof. intros s. unfold upsert. now destruct (env_upsert env (upserts s) b). Qed.
Lemma keeps_readFile env p : keeps_tmp (readFile env p).
Proof. unfold readFile. destruct (env_read env p); auto with keeps. Qed.
Lemma keeps_processChunk env fp rp c : keeps_tmp (processChunk env fp rp c).
Proof.
  unfold processChunk. destruct (env_embeddings env) as [f|]; [destruct (f c)|]; auto with keeps.
Qed.
Hint Resolve keeps_upsert keeps_readFile keeps_processChunk : keeps.
Lemma keeps_mapM_chunks env fp rp cs : keeps_tmp (mapM_chunks env fp rp cs).
Proof. induction cs; simpl; unfold log; auto with keeps. Qed.
Hint Resolve keeps_mapM_chunks : keeps.
Lemma keeps_processFile env f : keeps_tmp (processFile env f).
Proof. unfold processFile. auto with keeps. Qed.
Hint Resolve keeps_processFile : keeps.
Lemma keeps_processAll env fs : forall acc, keeps_tmp (processAll env fs acc).
Proof. induction fs; intros acc; simpl; unfold log; auto with keeps. Qed.
Lemma keeps_upsertLoop env bs ns all fuel : forall i, keeps_tmp (upsertLoop env bs ns all fuel i).
Proof.
  induction fuel; intros i; simpl; [auto with keeps|].
  destruct (i <? _); unfold log; auto with keeps.
Qed.

Lemma fails_bind {A B} (m : M A) (k : A -> M B) :
  keeps_tmp m -> (forall a, fails_with_tmp (k a)) -> fails_with_tmp (bind m k).
Proof.
  intros Hm Hk s s' e Hs. specialize (Hm s). unfold bind.
  destruct (m s) as [s1 [a|e1]]; simpl in Hm.
  - apply Hk. congruence.
  - intros [= <- _]. congruence.
Qed.

Lemma fails_rm_done p : fails_with_tmp (rm p ;; log MDone).
Proof. intros s s' e _. discriminate. Qed.

(** C1: once the clone into [temp_repo] has succeeded, every run that ends in
    an error leaves the working copy in place: the removal [fs.rm(repoDir)]
    sits on the success path only, and the [catch] block logs and rethrows
    without removing it. *)
Theorem run_failure_keeps_working_copy :
  forall env url e,
  env_clone env url = None ->
  snd (run env url st0) = Err e ->
  tmp_present (fst (run env url st0)) = true.
Proof.
  intros env url e Hcl.
  unfold run, try_catch.
  match goal with |- context [match ?b st0 with _ => _ end] =>
    destruct (b st0) as [s' [a|e']] eqn:Eb end; [discriminate|intros _].
  rewrite (keeps_bind _ _ (keeps_emit _) (fun _ => keeps_throw _)).
  revert Eb. unfold bind at 1, log at 1, emit at 1. simpl.
  unfold bind at 1, log at 1, emit at 1. simpl.
  unfold bind at 1. unfold cloneRepository at 1. unfold bind at 1 2, rm, git_clone. rewrite Hcl. simpl.
  intros Eb. refine (fails_bind _ _ _ _ _ _ _ _ Eb); [apply keeps_emit| |reflexivity]. intros _.
  apply fails_bind; [apply keeps_processAll|intros all].
  apply fails_bind; [apply keeps_emit|intros _].
  apply fails_bind; [apply keeps_upsertLoop|intros _].
  apply fails_rm_done.
Qed.

Lemma run_failure_keeps_working_copy_witness :
  let env := mkEnv ["work"] (fun _ => None) [DFile "README.md"]
               (fun _ => Some "hello world") None (fun _ _ => Some "rate limited") 0 in
  let url := "https://github.com/upstash/docs2vector" in
  env_clone env url = None /\ snd (run env url st0) = Err "rate limited" /\
  tmp_present (fst (run env url st0)) = true.
Proof.
  intros env url.
  assert (Hc : env_clone env url = None) by reflexivity.
  assert (He : snd (run env url st0) = Err "rate limited") by (vm_compute; reflexivity).
  split; [exact Hc|]. split; [exact He|].
  exact (run_failure_keeps_working_copy env url "rate limited" Hc He).
Defined.

(** ** Chunk identity *)
















(** ** The text splitter *)

Lemma sapp_nil_r s : String.append s EmptyString = s.
Proof. induction s; simpl; [reflexivity|]. now rewrite IHs. Qed.

Lemma sapp_assoc a b c :
  String.append (String.append a b) c = String.append a (String.append b c).
Proof. induction a; simpl; [reflexivity|]. now rewrite IHa. Qed.

Lemma slen_app a b : String.length (String.append a b) = String.length a + String.length b.
Proof. induction a; simpl; [reflexivity|]. now rewrite IHa. Qed.

Lemma sconcat_cons x xs :
  String.concat EmptyString (x :: xs) = String.append x (String.concat EmptyString xs).
Proof. destruct xs; simpl; [now rewrite sapp_nil_r|reflexivity]. Qed.

Lemma sconcat_app l1 l2 :
  String.concat EmptyString (l1 ++ l2)
  = String.append (String.concat EmptyString l1) (String.concat EmptyString l2).
Proof.
  induction l1 as [|x l1 IH]; [reflexivity|].
  rewrite <- app_comm_cons, !sconcat_cons, IH. now rewrite sapp_assoc.
Qed.

Lemma get_app p a b :
  String.get p (String.append a b)
  = if p <? String.length a then String.get p a else String.get (p - String.length a) b.
Proof.
  revert p. induction a as [|c a IH]; intros p; simpl.
  - now rewrite Nat.sub_0_r.
  - destruct p; simpl; [reflexivity|]. rewrite IH.
    destruct (p <? String.length a) eqn:E; destruct (S p <? S (String.length a)) eqn:E';
      try reflexivity; apply Nat.ltb_lt in E || apply Nat.ltb_ge in E;
      apply Nat.ltb_lt in E' || apply Nat.ltb_ge in E'; lia.
Qed.

Lemma get_lt p s x : String.get p s = Some x -> p < String.length s.
Proof.
  revert p. induction s as [|c s IH]; intros [|p]; simpl; try discriminate; [lia|].
  intros H. apply IH in H. lia.
Qed.

Lemma all_ws_nil : all_ws EmptyString.
Proof. intros p x H. destruct p; discriminate. Qed.

Lemma all_ws_cons c s : is_ws c = true -> all_ws s -> all_ws (String c s).
Proof. intros Hc Hs [|p] x H; simpl in H; [congruence|]. exact (Hs p x H). Qed.

Lemma all_ws_app a b : all_ws a -> all_ws b -> all_ws (String.append a b).
Proof.
  intros Ha Hb p x H. rewrite get_app in H.
  destruct (p <? String.length a); [exact (Ha _ _ H)|exact (Hb _ _ H)].
Qed.

Lemma trim_start_spec s :
  exists a, s = String.append a (trim_start s) /\ all_ws a /\
            (trim_start s = EmptyString \/ starts_nonws (trim_start s)).
Proof.
  induction s as [|c s IH]; simpl.
  - exists EmptyString. split; [reflexivity|]. split; [apply all_ws_nil|now left].
  - destruct (is_ws c) eqn:Hc.
    + destruct IH as (a & Ha & Hw & Hs). exists (String c a). simpl.
      split; [now f_equal|]. split; [now apply all_ws_cons|exact Hs].
    + exists EmptyString. split; [reflexivity|]. split; [apply all_ws_nil|right; exact Hc].
Qed.

Lemma trim_end_spec s :
  exists b, s = String.append (trim_end s) b /\ all_ws b /\
            (forall c r, s = String c r -> is_ws c = false -> starts_nonws (trim_end s)).
Proof.
  induction s as [|c s IH]; simpl.
  - exists EmptyString. split; [reflexivity|]. split; [apply all_ws_nil|discriminate].
  - destruct IH as (b & Hb & Hw & _).
    destruct (String.eqb (trim_end s) EmptyString && is_ws c) eqn:E.
    + apply andb_true_iff in E as [E1 E2]. apply String.eqb_eq in E1.
      exists (String c s). split; [reflexivity|]. split.
      * apply all_ws_cons; [exact E2|]. rewrite Hb, E1. exact Hw.
      * intros c' r [= <- <-]. congruence.
    + exists b. split; [simpl; now f_equal|]. split; [exact Hw|].
      intros c' r [= <- <-] Hc. exact Hc.
Qed.

(** [trim w] is [w] with a whitespace prefix and suffix cut off; when it is
    not empty it starts with a non-whitespace code unit. *)
Lemma trim_spec w :
  exists a b, w = String.append a (String.append (trim w) b) /\ all_ws a /\ all_ws b /\
              (trim w = EmptyString \/ starts_nonws (trim w)).
Proof.
  destruct (trim_start_spec w) as (a & Ha & Hwa & Hs).
  destruct (trim_end_spec (trim_start w)) as (b & Hb & Hwb & He).
  exists a, b. unfold trim. split; [rewrite <- Hb; exact Ha|].
  split; [exact Hwa|]. split; [exact Hwb|].
  destruct Hs as [Hs|Hs].
  - left. rewrite Hs. reflexivity.
  - right. destruct (trim_start w) as [|c r] eqn:E; [contradiction|].
    apply (He c r eq_refl Hs).
Qed.

Lemma trim_length w : String.length (trim w) <= String.length w.
Proof.
  destruct (trim_spec w) as (a & b & H & _). rewrite H at 2.
  rewrite !slen_app. lia.
Qed.

Lemma chars_concat s : String.concat EmptyString (chars s) = s.
Proof. induction s as [|c s IH]; [reflexivity|]. simpl chars. rewrite sconcat_cons, IH. reflexivity. Qed.

Lemma chars_length s : Forall (fun x => String.length x = 1) (chars s).
Proof. induction s; simpl; constructor; auto. Qed.

Lemma split_keep_go_concat sep rest : forall cur,
  String.concat EmptyString (split_keep_go sep rest cur) = String.append cur rest.
Proof.
  induction rest as [|c r IH]; intros cur; cbn [split_keep_go].
  - simpl. now rewrite sapp_nil_r.
  - destruct (String.prefix sep (String c r)).
    + rewrite sconcat_cons, IH. reflexivity.
    + rewrite IH, sapp_assoc. reflexivity.
Qed.

Lemma split_keep_concat sep text :
  String.concat EmptyString (split_keep sep text) = text.
Proof. destruct text as [|c r]; [reflexivity|]. apply split_keep_go_concat. Qed.

Lemma filter_nonempty_concat l :
  String.concat EmptyString (filter (fun s => negb (String.eqb s EmptyString)) l)
  = String.concat EmptyString l.
Proof.
  induction l as [|x l IH]; [reflexivity|]. rewrite sconcat_cons. simpl filter.
  destruct (String.eqb_spec x EmptyString) as [->|Hx]; simpl negb; cbv iota.
  - rewrite IH. reflexivity.
  - rewrite sconcat_cons, IH. reflexivity.
Qed.

Lemma splitOnSeparator_concat text sep :
  String.concat EmptyString (splitOnSeparator text sep) = text.
Proof.
  unfold splitOnSeparator. rewrite filter_nonempty_concat.
  destruct (String.eqb sep EmptyString); [apply chars_concat|apply split_keep_concat].
Qed.

Lemma splitOnSeparator_nonempty text sep :
  Forall (fun s => s <> EmptyString) (splitOnSeparator text sep).
Proof.
  unfold splitOnSeparator. apply Forall_forall. intros x Hx.
  apply filter_In in Hx as [_ Hx]. intros ->. discriminate.
Qed.

Lemma splitOnSeparator_empty_sep text :
  Forall (fun x => String.length x = 1) (splitOnSeparator text EmptyString).
Proof.
  unfold splitOnSeparator. simpl. apply Forall_forall. intros x Hx.
  apply filter_In in Hx as [Hx _]. revert x Hx. apply Forall_forall, chars_length.
Qed.

Lemma sumlen_concat l : String.length (String.concat EmptyString l) = sumlen l.
Proof.
  induction l as [|x l IH]; [reflexivity|]. rewrite sconcat_cons, slen_app, IH. reflexivity.
Qed.

Lemma sumlen_app l1 l2 : sumlen (l1 ++ l2) = sumlen l1 + sumlen l2.
Proof. unfold sumlen. now rewrite map_app, list_sum_app. Qed.

Lemma joinDocs_concat l :
  joinDocs l EmptyString = joinDocs [String.concat EmptyString l] EmptyString.
Proof. reflexivity. Qed.

Lemma sumlen_nonempty_nil l :
  Forall (fun s => s <> EmptyString) l -> sumlen l = 0 -> l = [].
Proof.
  destruct l as [|x l]; [reflexivity|]. intros Hl H. inversion Hl as [|? ? Hx _]; subst.
  destruct x as [|c x]; [congruence|]. unfold sumlen in H. simpl in H. lia.
Qed.

Lemma merge_go_small cs ov splits : forall cur total,
  total = sumlen cur -> sumlen cur + sumlen splits <= cs ->
  merge_go cs ov EmptyString splits cur total
  = opt_list (joinDocs (cur ++ splits) EmptyString).
Proof.
  induction splits as [|d ds IH]; intros cur total Ht Hle.
  - simpl. now rewrite app_nil_r.
  - cbn [merge_go]. simpl String.length at 3. rewrite Nat.mul_0_r, Nat.add_0_r.
    unfold sumlen in Hle. simpl in Hle. fold (sumlen ds) in Hle. fold (sumlen cur) in Hle.
    replace (cs <? total + String.length d) with false
      by (symmetry; apply Nat.ltb_ge; lia).
    simpl andb. cbv iota. rewrite IH.
    + now rewrite <- app_assoc.
    + rewrite sumlen_app. unfold sumlen at 2. simpl. lia.
    + rewrite sumlen_app. unfold sumlen at 2. simpl. lia.
Qed.

Lemma split_loop_small cs ov rec splits : forall good,
  Forall (fun s => s <> EmptyString) (good ++ splits) ->
  Forall (fun s => String.length s < cs) good ->
  sumlen good + sumlen splits <= cs ->
  (forall s, In s splits -> String.length s = cs ->
     match rec with
     | None => False
     | Some f => f s = opt_list (joinDocs [s] EmptyString)
     end) ->
  split_loop cs ov rec splits good
  = opt_list (joinDocs [String.append (String.concat EmptyString good)
                                      (String.concat EmptyString splits)] EmptyString).
Proof.
  induction splits as [|s ss IH]; intros good Hne Hsm Hle Hbig.
  - cbn [split_loop]. rewrite app_nil_r in Hne.
    destruct good as [|g gs]; [reflexivity|]. cbn [is_nil].
    unfold mergeSplits. rewrite merge_go_small by (unfold sumlen in *; simpl in *; lia).
    simpl app. rewrite joinDocs_concat. simpl String.concat at 2. now rewrite sapp_nil_r.
  - cbn [split_loop]. unfold sumlen in Hle. simpl in Hle.
    fold (sumlen ss) in Hle. fold (sumlen good) in Hle.
    destruct (String.length s <? cs) eqn:Hs.
    + apply Nat.ltb_lt in Hs. rewrite IH.
      * rewrite sconcat_app, (sconcat_cons s ss), sapp_assoc. reflexivity.
      * now rewrite <- app_assoc.
      * apply Forall_app. split; [exact Hsm|]. now constructor.
      * rewrite sumlen_app. unfold sumlen at 2. simpl. fold (sumlen ss). lia.
      * intros x Hx. apply Hbig. now right.
    + apply Nat.ltb_ge in Hs.
      apply Forall_app in Hne as [Hg Hss]. inversion Hss as [|? ? Hs0 Hss']; subst.
      assert (good = []) as -> by (apply sumlen_nonempty_nil; [exact Hg|lia]).
      assert (ss = []) as -> by (apply sumlen_nonempty_nil; [exact Hss'|lia]).
      specialize (Hbig s (or_introl eq_refl) ltac:(unfold sumlen in Hle; simpl in Hle; lia)).
      destruct rec as [f|]; [|contradiction].
      cbn [is_nil split_loop]. rewrite Hbig, app_nil_r. reflexivity.
Qed.

Lemma last_cons_empty s rest :
  last (s :: rest) EmptyString = EmptyString -> last rest EmptyString = EmptyString.
Proof. destruct rest as [|x rest]; [reflexivity|]. intros H. exact H. Qed.

Lemma split_go_small cs ov (Hcs : 2 <= cs) seps :
  last seps EmptyString = EmptyString ->
  forall text, String.length text <= cs ->
  split_go cs ov EmptyString seps text = opt_list (joinDocs [text] EmptyString).
Proof.
  assert (Hchars : forall text, String.length text <= cs ->
    split_loop cs ov None (splitOnSeparator text EmptyString) []
    = opt_list (joinDocs [text] EmptyString)).
  { intros text Hl. rewrite split_loop_small.
    - now rewrite splitOnSeparator_concat.
    - apply splitOnSeparator_nonempty.
    - constructor.
    - simpl. rewrite <- sumlen_concat, splitOnSeparator_concat. exact Hl.
    - intros s Hs Hlen. pose proof (splitOnSeparator_empty_sep text) as H1.
      rewrite Forall_forall in H1. specialize (H1 s Hs). lia. }
  induction seps as [|s rest IH]; intros Hlast text Hl; cbn [split_go].
  - apply Hchars. exact Hl.
  - destruct (String.eqb s EmptyString); [apply Hchars; exact Hl|].
    apply last_cons_empty in Hlast.
    destruct (JsString.includes text s); [|apply IH; assumption].
    rewrite Hlast. rewrite split_loop_small.
    + now rewrite splitOnSeparator_concat.
    + apply splitOnSeparator_nonempty.
    + constructor.
    + simpl. rewrite <- sumlen_concat, splitOnSeparator_concat. exact Hl.
    + intros p Hp Hlen. apply IH; [exact Hlast|lia].
Qed.

(** C5 (as the code behaves): a text of at most [chunkSize] code units gives
    no chunk when it is empty or all whitespace, and otherwise exactly one
    chunk: the text with its leading and trailing whitespace removed (JS
    [trim], applied by the splitter's [joinDocs]). *)
Theorem splitDocuments_short_text :
  forall t, String.length t <= chunkSize ->
  splitDocuments t = if String.eqb (trim t) EmptyString then [] else [trim t].
Proof.
  intros t Ht. unfold splitDocuments, splitText.
  change (last separators EmptyString) with EmptyString.
  rewrite split_go_small; [| unfold chunkSize; lia | reflexivity | exact Ht].
  unfold joinDocs. simpl String.concat. now destruct (String.eqb (trim t) EmptyString).
Qed.

Lemma splitDocuments_short_text_counterexample :
  let t := String (ascii_of_nat 32) "a" in
  String.length t <= chunkSize /\ t <> EmptyString /\
  splitDocuments t = ["a"] /\ splitDocuments t <> [t].
Proof.
  intros t. split; [unfold chunkSize; simpl; lia|]. split; [discriminate|].
  assert (H : splitDocuments t = ["a"]) by (vm_compute; reflexivity).
  split; [exact H|]. rewrite H. intros [=].
Qed.

Lemma splitDocuments_short_text_witness :
  String.length " a" <= chunkSize /\ splitDocuments " a" = ["a"].
Proof.
  assert (H : String.length " a" <= chunkSize) by (unfold chunkSize; simpl; lia).
  split; [exact H|]. rewrite (splitDocuments_short_text " a" H). reflexivity.
Defined.

Lemma occurs_app_l w1 w2 o c : occurs w1 o c -> occurs (String.append w1 w2) o c.
Proof.
  intros (a & b & -> & Ha). exists a, (String.append b w2). split; [|exact Ha].
  now rewrite !sapp_assoc.
Qed.

Lemma occurs_app_r w1 w2 o c :
  occurs w2 o c -> occurs (String.append w1 w2) (String.length w1 + o) c.
Proof.
  intros (a & b & -> & Ha). exists (String.append w1 a), b.
  rewrite slen_app, sapp_assoc. split; [reflexivity|lia].
Qed.

Lemma occurs_bound w o c : occurs w o c -> o + String.length c <= String.length w.
Proof. intros (a & b & -> & <-). rewrite !slen_app. lia. Qed.

Lemma occurs_get w o c p : occurs w o c -> p < String.length c ->
  String.get (o + p) w = String.get p c.
Proof.
  intros (a & b & -> & <-) Hp. rewrite get_app.
  destruct (String.length a + p <? String.length a) eqn:E; [apply Nat.ltb_lt in E; lia|].
  replace (String.length a + p - String.length a) with p by lia.
  rewrite get_app. now apply Nat.ltb_lt in Hp as ->.
Qed.

Lemma ordered_app l1 l2 :
  ordered l1 -> ordered l2 -> (forall x y, In x l1 -> In y l2 -> x <= y) ->
  ordered (l1 ++ l2).
Proof.
  induction l1 as [|x l1 IH]; simpl; [auto|]. intros [Hx H1] H2 H12. split.
  - apply Forall_app. split; [exact Hx|]. apply Forall_forall. intros y Hy. apply H12; auto.
  - apply IH; auto.
Qed.

Lemma ordered_shift k l : ordered l -> ordered (map (fun y => k + y) l).
Proof.
  induction l as [|x l IH]; simpl; [auto|]. intros [Hx Hl]. split; [|auto].
  apply Forall_map. eapply Forall_impl; [|exact Hx]. simpl. lia.
Qed.

Lemma map_fst_shift k L : map fst (shift k L) = map (fun y => k + y) (map fst L).
Proof. unfold shift. rewrite !map_map. reflexivity. Qed.

Lemma map_snd_shift k L : map snd (shift k L) = map snd L.
Proof. unfold shift. rewrite map_map. reflexivity. Qed.

Lemma cover_app w1 w2 L1 L2 :
  cover w1 L1 -> cover w2 L2 ->
  cover (String.append w1 w2) (L1 ++ shift (String.length w1) L2).
Proof.
  intros (Ho1 & Hs1 & Hc1) (Ho2 & Hs2 & Hc2). split; [|split].
  - apply Forall_app. split.
    + eapply Forall_impl; [|exact Ho1]. intros [o c]. apply occurs_app_l.
    + unfold shift. apply Forall_map. eapply Forall_impl; [|exact Ho2].
      intros [o c]. apply occurs_app_r.
  - rewrite map_app, map_fst_shift. apply ordered_app; [exact Hs1|now apply ordered_shift|].
    intros x y Hx Hy. apply in_map_iff in Hx as ([o c] & <- & Hx).
    apply in_map_iff in Hy as (y' & <- & _).
    rewrite Forall_forall in Ho1. apply Ho1, occurs_bound in Hx. simpl in *. lia.
  - intros p x Hp Hx. rewrite get_app in Hp.
    destruct (p <? String.length w1) eqn:E.
    + destruct (Hc1 p x Hp Hx) as (o & c & Hin & Hr).
      exists o, c. split; [apply in_or_app; now left|exact Hr].
    + apply Nat.ltb_ge in E. destruct (Hc2 _ x Hp Hx) as (o & c & Hin & Hr).
      exists (String.length w1 + o), c. split; [|lia].
      apply in_or_app. right. unfold shift. apply in_map_iff. now exists (o, c).
Qed.

Lemma cover_single w : cover w [(0, w)].
Proof.
  split; [|split].
  - constructor; [|constructor]. exists EmptyString, EmptyString. simpl.
    now rewrite sapp_nil_r.
  - simpl. auto.
  - intros p x Hp _. exists 0, w. split; [now left|]. apply get_lt in Hp. lia.
Qed.

Lemma cover_nil w : all_ws w -> cover w [].
Proof.
  intros Hw. split; [constructor|split; [exact I|]].
  intros p x Hp Hx. rewrite (Hw p x Hp) in Hx. discriminate.
Qed.

Lemma get_app_ge p a b : String.length a <= p ->
  String.get p (String.append a b) = String.get (p - String.length a) b.
Proof. intros H. rewrite get_app. now replace (p <? String.length a) with false by (symmetry; apply Nat.ltb_ge; lia). Qed.

Lemma get_app_lt p a b : p < String.length a ->
  String.get p (String.append a b) = String.get p a.
Proof. intros H. rewrite get_app. now apply Nat.ltb_lt in H as ->. Qed.

Lemma occurs_starts w o c : occurs w o c -> starts_nonws c ->
  exists x, String.get o w = Some x /\ is_ws x = false.
Proof.
  intros Ho Hs. destruct c as [|c0 r]; [contradiction|].
  exists c0. split; [|exact Hs]. rewrite <- (Nat.add_0_r o).
  rewrite (occurs_get w o _ 0 Ho); [reflexivity|simpl; lia].
Qed.

(** What [joinDocs(currentDoc, "")] emits: the trimmed window, located at
    its first non-whitespace code unit, or nothing when the window is all
    whitespace. *)
Lemma joinDocs_cover cur :
  exists L0, map snd L0 = opt_list (joinDocs cur EmptyString) /\
    cover (String.concat EmptyString cur) L0 /\
    (forall o c, In (o, c) L0 -> starts_nonws c /\
       forall p x, p < o -> String.get p (String.concat EmptyString cur) = Some x ->
       is_ws x = true).
Proof.
  set (w := String.concat EmptyString cur).
  destruct (trim_spec w) as (a & b & Hw & Ha & Hb & Ht).
  unfold joinDocs. fold w.
  destruct (String.eqb_spec (trim w) EmptyString) as [He|Hne].
  - exists []. split; [reflexivity|]. split; [|intros o c []].
    apply cover_nil. rewrite Hw, He. simpl. now apply all_ws_app.
  - destruct Ht as [Ht|Ht]; [contradiction|].
    exists [(String.length a, trim w)]. split; [reflexivity|]. split; [split; [|split]|].
    + constructor; [|constructor]. exists a, b. split; [exact Hw|reflexivity].
    + simpl. auto.
    + intros p x Hp Hx. exists (String.length a), (trim w). split; [now left|].
      rewrite Hw in Hp. rewrite get_app in Hp.
      destruct (p <? String.length a) eqn:E1.
      { rewrite (Ha _ _ Hp) in Hx. discriminate. }
      apply Nat.ltb_ge in E1. rewrite get_app in Hp.
      destruct (p - String.length a <? String.length (trim w)) eqn:E2.
      { apply Nat.ltb_lt in E2. lia. }
      rewrite (Hb _ _ Hp) in Hx. discriminate.
    + intros o c [[= <- <-]|[]]. split; [exact Ht|].
      intros p x Hp Hg. rewrite Hw, get_app_lt in Hg by exact Hp. exact (Ha _ _ Hg).
Qed.

(** The chunk emitted from a window and the chunks of the windows after it:
    the later windows start no earlier (they drop a prefix [dr] of the
    window [u]), and the emitted chunk sits at the window's first
    non-whitespace code unit. *)
Lemma cover_overlap u rest dr W' L0 L' :
  String.append u rest = String.append dr W' ->
  String.length dr <= String.length u ->
  cover u L0 ->
  (forall o c, In (o, c) L0 -> forall p x, p < o -> String.get p u = Some x -> is_ws x = true) ->
  cover W' L' -> Forall (fun oc => starts_nonws (snd oc)) L' ->
  cover (String.append u rest) (L0 ++ shift (String.length dr) L').
Proof.
  intros HW Hdr (Ho0 & Hs0 & Hc0) Hfirst (Ho' & Hs' & Hc') Hst. split; [|split].
  - apply Forall_app. split.
    + eapply Forall_impl; [|exact Ho0]. intros [o c]. apply occurs_app_l.
    + rewrite HW. unfold shift. apply Forall_map. eapply Forall_impl; [|exact Ho'].
      intros [o c]. apply occurs_app_r.
  - rewrite map_app, map_fst_shift. apply ordered_app; [exact Hs0|now apply ordered_shift|].
    intros x y Hx Hy. apply in_map_iff in Hx as ([o0 c0] & <- & Hx).
    apply in_map_iff in Hy as (y' & <- & Hy). apply in_map_iff in Hy as ([o c] & <- & Hy).
    simpl. rewrite Forall_forall in Ho', Hst, Ho0.
    destruct (occurs_starts _ _ _ (Ho' _ Hy) (Hst _ Hy)) as (z & Hz & Hzw).
    simpl in Hz. destruct (Nat.le_gt_cases o0 (String.length dr + o)) as [|Hlt]; [assumption|].
    exfalso. pose proof (occurs_bound _ _ _ (Ho0 _ Hx)) as Hb. simpl in Hb.
    assert (Hg : String.get (String.length dr + o) u = Some z).
    { rewrite <- (get_app_lt _ u rest) by lia. rewrite HW, get_app_ge by lia.
      now replace (String.length dr + o - String.length dr) with o by lia. }
    rewrite (Hfirst _ _ Hx _ _ Hlt Hg) in Hzw. discriminate.
  - intros p x Hp Hx. destruct (Nat.lt_ge_cases p (String.length u)) as [Hl|Hl].
    + rewrite get_app_lt in Hp by exact Hl.
      destruct (Hc0 p x Hp Hx) as (o & c & Hin & Hr).
      exists o, c. split; [apply in_or_app; now left|exact Hr].
    + rewrite HW, get_app_ge in Hp by lia.
      destruct (Hc' _ x Hp Hx) as (o & c & Hin & Hr).
      exists (String.length dr + o), c. split; [|lia].
      apply in_or_app. right. unfold shift. apply in_map_iff. now exists (o, c).
Qed.

Lemma shrink_suffix cs ov sep len cur : forall total,
  exists dr, cur = dr ++ fst (shrink cs ov sep len cur total).
Proof.
  induction cur as [|c cs' IH]; intros total; cbn [shrink].
  - now exists [].
  - destruct (_ || _).
    + destruct (IH (total - String.length c)) as (dr & Hdr).
      exists (c :: dr). simpl. now f_equal.
    + now exists [].
Qed.

Lemma merge_go_cover cs ov splits : forall cur total,
  exists L, map snd L = merge_go cs ov EmptyString splits cur total /\
    cover (String.append (String.concat EmptyString cur) (String.concat EmptyString splits)) L /\
    Forall (fun oc => starts_nonws (snd oc)) L.
Proof.
  induction splits as [|d ds IH]; intros cur total; cbn [merge_go].
  - destruct (joinDocs_cover cur) as (L0 & Hm & Hc & Hf).
    exists L0. split; [exact Hm|]. simpl String.concat at 2. rewrite sapp_nil_r.
    split; [exact Hc|]. apply Forall_forall. intros [o c] Hin. exact (proj1 (Hf o c Hin)).
  - destruct (_ && _).
    + destruct (joinDocs_cover cur) as (L0 & Hm & Hc & Hf).
      destruct (shrink_suffix cs ov EmptyString (String.length d) cur total) as (dr & Hdr).
      destruct (shrink cs ov EmptyString (String.length d) cur total) as [cur' t'].
      simpl in Hdr.
      destruct (IH (cur' ++ [d]) (t' + String.length d)) as (L' & Hm' & Hc' & Hs').
      exists (L0 ++ shift (String.length (String.concat EmptyString dr)) L').
      split; [rewrite map_app, map_snd_shift, Hm, Hm'; reflexivity|]. split.
      * apply cover_overlap with (W' := String.append (String.concat EmptyString (cur' ++ [d]))
                                                      (String.concat EmptyString ds)).
        -- rewrite Hdr, !sconcat_app, (sconcat_cons d ds), !sapp_assoc. reflexivity.
        -- rewrite Hdr, sconcat_app, slen_app. lia.
        -- exact Hc.
        -- intros o c Hin. exact (proj2 (Hf o c Hin)).
        -- exact Hc'.
        -- exact Hs'.
      * apply Forall_app. split.
        -- apply Forall_forall. intros [o c] Hin. exact (proj1 (Hf o c Hin)).
        -- unfold shift. apply Forall_map. exact Hs'.
    + destruct (IH (cur ++ [d]) (total + String.length d)) as (L & Hm & Hc & Hs).
      exists L. split; [exact Hm|]. split; [|exact Hs].
      rewrite (sconcat_cons d ds). rewrite sconcat_app, sapp_assoc in Hc. exact Hc.
Qed.

Lemma mergeSplits_cover cs ov good :
  exists L, map snd L = (if is_nil good then [] else mergeSplits cs ov good EmptyString) /\
    cover (String.concat EmptyString good) L.
Proof.
  destruct good as [|g gs].
  - exists []. split; [reflexivity|]. apply cover_nil, all_ws_nil.
  - destruct (merge_go_cover cs ov (g :: gs) [] 0) as (L & Hm & Hc & _).
    exists L. split; [exact Hm|exact Hc].
Qed.

Lemma split_loop_cover cs ov rec splits : forall good,
  (forall s, In s splits ->
     match rec with
     | None => True
     | Some f => exists L, map snd L = f s /\ cover s L
     end) ->
  exists L, map snd L = split_loop cs ov rec splits good /\
    cover (String.append (String.concat EmptyString good) (String.concat EmptyString splits)) L.
Proof.
  induction splits as [|s ss IH]; intros good Hrec; cbn [split_loop].
  - destruct (mergeSplits_cover cs ov good) as (L & Hm & Hc).
    exists L. split; [exact Hm|]. simpl String.concat at 2. now rewrite sapp_nil_r.
  - destruct (String.length s <? cs).
    + destruct (IH (good ++ [s])) as (L & Hm & Hc); [intros x Hx; apply Hrec; now right|].
      exists L. split; [exact Hm|]. rewrite (sconcat_cons s ss).
      rewrite sconcat_app, sapp_assoc in Hc. exact Hc.
    + destruct (mergeSplits_cover cs ov good) as (L1 & Hm1 & Hc1).
      assert (H2 : exists L2, map snd L2 = match rec with None => [s] | Some f => f s end
                              /\ cover s L2).
      { specialize (Hrec s (or_introl eq_refl)). destruct rec as [f|].
        - exact Hrec.
        - exists [(0, s)]. split; [reflexivity|apply cover_single]. }
      destruct H2 as (L2 & Hm2 & Hc2).
      destruct (IH []) as (L3 & Hm3 & Hc3); [intros x Hx; apply Hrec; now right|].
      simpl String.concat at 1 in Hc3.
      exists (L1 ++ shift (String.length (String.concat EmptyString good))
                      (L2 ++ shift (String.length s) L3)).
      split.
      * rewrite map_app, map_snd_shift, map_app, map_snd_shift, Hm1, Hm2, Hm3. reflexivity.
      * rewrite (sconcat_cons s ss). apply cover_app; [exact Hc1|]. now apply cover_app.
Qed.

Lemma split_go_cover cs ov seps : forall dflt text,
  exists L, map snd L = split_go cs ov dflt seps text /\ cover text L.
Proof.
  assert (Hnone : forall sep text, exists L,
    map snd L = split_loop cs ov None (splitOnSeparator text sep) [] /\ cover text L).
  { intros sep text. destruct (split_loop_cover cs ov None (splitOnSeparator text sep) [])
      as (L & Hm & Hc); [intros; exact I|].
    exists L. split; [exact Hm|]. simpl in Hc. now rewrite splitOnSeparator_concat in Hc. }
  induction seps as [|s rest IH]; intros dflt text; cbn [split_go].
  - apply Hnone.
  - destruct (String.eqb s EmptyString); [apply Hnone|].
    destruct (JsString.includes text s); [|apply IH].
    destruct (split_loop_cover cs ov (Some (split_go cs ov (last rest EmptyString) rest))
                (splitOnSeparator text s) []) as (L & Hm & Hc).
    + intros x _. apply IH.
    + exists L. split; [exact Hm|]. simpl in Hc. now rewrite splitOnSeparator_concat in Hc.
Qed.

Lemma joinDocs_bound cs cur : sumlen cur <= cs ->
  Forall (fun c => String.length c <= cs) (opt_list (joinDocs cur EmptyString)).
Proof.
  intros H. unfold joinDocs. destruct (String.eqb _ _); constructor; [|constructor].
  pose proof (trim_length (String.concat EmptyString cur)). rewrite sumlen_concat in *. lia.
Qed.

Lemma shrink_spec cs ov len cur : forall total, total = sumlen cur ->
  let r := shrink cs ov EmptyString len cur total in
  snd r = sumlen (fst r) /\ (snd r + len <= cs \/ snd r = 0).
Proof.
  induction cur as [|c cur IH]; intros total Ht; cbn [shrink].
  - simpl. auto.
  - unfold sumlen in Ht. simpl in Ht. fold (sumlen cur) in Ht.
    destruct ((ov <? total) || _) eqn:E.
    + apply IH. lia.
    + simpl. split; [unfold sumlen; simpl; fold (sumlen cur); lia|].
      apply orb_false_iff in E as [_ E]. rewrite Nat.mul_0_r, Nat.add_0_r in E.
      apply andb_false_iff in E as [E|E]; [apply Nat.ltb_ge in E; lia|].
      apply Nat.ltb_ge in E. lia.
Qed.

Lemma sumlen_snoc l d : sumlen (l ++ [d]) = sumlen l + String.length d.
Proof. rewrite sumlen_app. unfold sumlen at 2. simpl. lia. Qed.

Lemma merge_go_bound cs ov splits : forall cur total,
  total = sumlen cur -> total <= cs -> Forall (fun d => String.length d <= cs) splits ->
  Forall (fun c => String.length c <= cs) (merge_go cs ov EmptyString splits cur total).
Proof.
  induction splits as [|d ds IH]; intros cur total Ht Hc Hs; cbn [merge_go].
  - apply joinDocs_bound. lia.
  - inversion Hs as [|? ? Hd Hds]; subst. simpl String.length at 3.
    rewrite Nat.mul_0_r, Nat.add_0_r.
    destruct ((cs <? sumlen cur + String.length d) && negb (is_nil cur)) eqn:E.
    + pose proof (shrink_spec cs ov (String.length d) cur (sumlen cur) eq_refl) as Hsh.
      destruct (shrink cs ov EmptyString (String.length d) cur (sumlen cur)) as [cur' t'].
      simpl in Hsh. destruct Hsh as [Ht' Hb].
      apply Forall_app. split; [apply joinDocs_bound; lia|].
      apply IH; [rewrite sumlen_snoc; lia|lia|exact Hds].
    + apply IH; [rewrite sumlen_snoc; lia| |exact Hds].
      apply andb_false_iff in E as [E|E]; [apply Nat.ltb_ge in E; lia|].
      destruct cur; [|discriminate]. simpl in *. lia.
Qed.

Lemma split_loop_bound cs ov rec splits : forall good,
  Forall (fun s => String.length s < cs) good ->
  (forall s, In s splits -> cs <= String.length s ->
     match rec with
     | None => String.length s <= cs
     | Some f => Forall (fun c => String.length c <= cs) (f s)
     end) ->
  Forall (fun c => String.length c <= cs) (split_loop cs ov rec splits good).
Proof.
  assert (Hm : forall good, Forall (fun s => String.length s < cs) good ->
    Forall (fun c => String.length c <= cs)
      (if is_nil good then [] else mergeSplits cs ov good EmptyString)).
  { intros good Hg. destruct good; [constructor|]. apply merge_go_bound; [reflexivity|lia|].
    eapply Forall_impl; [|exact Hg]. simpl. lia. }
  induction splits as [|s ss IH]; intros good Hg Hrec; cbn [split_loop].
  - now apply Hm.
  - destruct (String.length s <? cs) eqn:E.
    + apply Nat.ltb_lt in E. apply IH.
      * apply Forall_app. split; [exact Hg|]. now constructor.
      * intros x Hx. apply Hrec. now right.
    + apply Nat.ltb_ge in E. apply Forall_app. split; [now apply Hm|].
      apply Forall_app. split.
      * specialize (Hrec s (or_introl eq_refl) E). destruct rec; [exact Hrec|].
        now constructor.
      * apply IH; [constructor|]. intros x Hx. apply Hrec. now right.
Qed.

Lemma split_go_bound cs ov (Hcs : 1 <= cs) seps :
  last seps EmptyString = EmptyString ->
  forall text, Forall (fun c => String.length c <= cs) (split_go cs ov EmptyString seps text).
Proof.
  assert (Hchars : forall text, Forall (fun c => String.length c <= cs)
    (split_loop cs ov None (splitOnSeparator text EmptyString) [])).
  { intros text. apply split_loop_bound; [constructor|]. intros s Hs _.
    pose proof (splitOnSeparator_empty_sep text) as H1.
    rewrite Forall_forall in H1. specialize (H1 s Hs). lia. }
  induction seps as [|s rest IH]; intros Hlast text; cbn [split_go].
  - apply Hchars.
  - destruct (String.eqb s EmptyString); [apply Hchars|].
    apply last_cons_empty in Hlast.
    destruct (JsString.includes text s); [|apply IH; assumption].
    rewrite Hlast. apply split_loop_bound; [constructor|].
    intros x _ _. apply IH. exact Hlast.
Qed.

(** C6 (as the code behaves): every chunk has at most [chunkSize] code
    units, with no exception; each chunk occurs in the text, at offsets that
    can be listed in document order; and every non-whitespace code unit of the
    text lies inside one of those occurrences. Whitespace at a chunk's ends
    may belong to no chunk. *)
Theorem splitDocuments_cover :
  forall t,
  Forall (fun c => String.length c <= chunkSize) (splitDocuments t) /\
  exists L, map snd L = splitDocuments t /\
    Forall (fun oc => occurs t (fst oc) (snd oc)) L /\
    ordered (map fst L) /\ covered t L.
Proof.
  intros t. unfold splitDocuments, splitText.
  change (last separators EmptyString) with EmptyString. split.
  - apply split_go_bound; [unfold chunkSize; lia|reflexivity].
  - destruct (split_go_cover chunkSize chunkOverlap separators EmptyString t) as (L & Hm & Hc).
    exists L. split; [exact Hm|exact Hc].
Qed.

Lemma splitDocuments_cover_counterexample :
  let t := String (ascii_of_nat 32) "a" in
  String.get 0 t = Some (ascii_of_nat 32) /\
  splitDocuments t = ["a"] /\
  Forall (fun c => JsString.includes c (String (ascii_of_nat 32) EmptyString) = false)
         (splitDocuments t).
Proof.
  intros t. split; [reflexivity|].
  assert (H : splitDocuments t = ["a"]) by (vm_compute; reflexivity).
  split; [exact H|]. rewrite H. constructor; [reflexivity|constructor].
Qed.

(** ** Processing one file *)

Lemma processChunk_state env fp rp c s :
  processChunk env fp rp c s = (s, snd (processChunk env fp rp c st0)).
Proof. unfold processChunk. destruct (env_embeddings env) as [f|]; [destruct (f c)|]; reflexivity. Qed.

Lemma mapM_chunks_state env fp rp cs : forall s,
  mapM_chunks env fp rp cs s = (s, snd (mapM_chunks env fp rp cs st0)).
Proof.
  induction cs as [|c cs IH]; intros s; [reflexivity|]. simpl mapM_chunks. unfold bind.
  rewrite (processChunk_state env fp rp c s), (processChunk_state env fp rp c st0).
  destruct (snd (processChunk env fp rp c st0)) as [r|e]; [|reflexivity].
  rewrite (IH s), (IH st0). destruct (snd (mapM_chunks env fp rp cs st0)); reflexivity.
Qed.

Lemma mapM_chunks_ok env fp rp cs : forall recs,
  snd (mapM_chunks env fp rp cs st0) = Ok recs <->
  Forall2 (fun c r => snd (processChunk env fp rp c st0) = Ok r) cs recs.
Proof.
  induction cs as [|c cs IH]; intros recs; simpl mapM_chunks.
  - split; [intros [= <-]; constructor|intros H; inversion H; reflexivity].
  - unfold bind. rewrite processChunk_state.
    destruct (snd (processChunk env fp rp c st0)) as [r|e] eqn:E.
    + rewrite mapM_chunks_state.
      destruct (snd (mapM_chunks env fp rp cs st0)) as [rs|e'] eqn:E2; simpl.
      * split.
        -- intros [= <-]. constructor; [exact E|]. now apply IH.
        -- intros H. inversion H as [|? ? ? ? Hr Hrs]; subst. rewrite E in Hr. injection Hr as ->.
           apply IH in Hrs. congruence.
      * split; [discriminate|]. intros H. inversion H as [|? ? ? ? Hr Hrs]; subst.
        apply IH in Hrs. congruence.
    + simpl. split; [discriminate|]. intros H. inversion H; congruence.
Qed.

Lemma mapM_chunks_err env fp rp cs :
  (exists e, snd (mapM_chunks env fp rp cs st0) = Err e) <->
  (exists c, In c cs /\ exists e, snd (processChunk env fp rp c st0) = Err e).
Proof.
  induction cs as [|c cs IH]; simpl mapM_chunks.
  - split; [intros [e [=]]|intros [c [[] _]]].
  - unfold bind. rewrite processChunk_state.
    destruct (snd (processChunk env fp rp c st0)) as [r|e] eqn:E.
    + rewrite mapM_chunks_state.
      destruct (snd (mapM_chunks env fp rp cs st0)) as [rs|e'] eqn:E2; simpl.
      * split; [intros [e [=]]|]. intros [c' [[<-|Hin] [e He]]]; [congruence|].
        destruct (proj2 IH (ex_intro _ c' (conj Hin (ex_intro _ e He)))) as [e' He'].
        discriminate.
      * split; [|eauto]. intros _. destruct (proj1 IH (ex_intro _ e' eq_refl)) as [c' [Hin He]].
        exists c'. split; [now right|exact He].
    + simpl. split; [|eauto]. intros _. exists c. split; [now left|eauto].
Qed.

Lemma processFile_state env f s :
  processFile env f s = (s, snd (processFile env f st0)).
Proof.
  unfold processFile, readFile, bind. destruct (env_read env f) as [content|]; [|reflexivity].
  simpl. apply mapM_chunks_state.
Qed.

(** A readable file fails to process exactly when an embedding provider is
    configured and rejects one of the file's chunks; processing a file has no
    effect on the state. *)
(** X2: processing a readable file changes no state, and it throws exactly
    when an embedding provider is configured and rejects one of the file's
    chunks. *)
Theorem processFile_fails_iff :
  forall env f content s,
  env_read env f = Some content ->
  fst (processFile env f s) = s /\
  ((exists e, snd (processFile env f s) = Err e) <->
   (exists emb c, env_embeddings env = Some emb /\ In c (splitDocuments content) /\
                  emb c = None)).
Proof.
  intros env f content s Hr. rewrite processFile_state. split; [reflexivity|]. simpl.
  unfold processFile, readFile, bind. rewrite Hr. simpl. rewrite mapM_chunks_err.
  split.
  - intros [c [Hin [e He]]]. unfold processChunk in He.
    destruct (env_embeddings env) as [emb|]; [|discriminate].
    destruct (emb c) eqn:Ec; [discriminate|]. exists emb, c. auto.
  - intros (emb & c & He & Hin & Hc). exists c. split; [exact Hin|].
    unfold processChunk. rewrite He, Hc. eexists; reflexivity.
Qed.

Lemma processFile_fails_iff_witness :
  let env := mkEnv ["w"] (fun _ => None) [] (fun _ => Some "hello world")
               (Some (fun _ => None)) (fun _ _ => None) 0 in
  let p := ["w"; "temp_repo"; "a.md"] in
  env_read env p = Some "hello world" /\ exists e, snd (processFile env p st0) = Err e.
Proof.
  intros env p. split; [reflexivity|].
  apply (proj2 (proj2 (processFile_fails_iff env p "hello world" st0 eq_refl))).
  exists (fun _ => None), "hello world". split; [reflexivity|]. split; [|reflexivity].
  vm_compute. now left.
Defined.

(** Each record [#processFile] returns belongs to one chunk of the file, in
    chunk order: its [id] is the MD5 of the chunk, its [data] is the chunk, its
    metadata names the file, and its [vector] (when embeddings are configured)
    is the first vector the provider returned, [undefined] if it returned
    none. *)
(** X1: each record [#processFile] returns for a readable file belongs to
    one chunk of the file, in chunk order: its [id] is the MD5 hex digest of
    the chunk, its [data] is the chunk, its [metadata] gives the file's base
    name, its path relative to the working directory, its extension without
    the dot and the time, and its [vector] (present only when embeddings are
    configured) is the first vector the provider returned, [undefined] when it
    returned none. *)
Theorem processFile_records :
  forall env f content s recs,
  env_read env f = Some content ->
  snd (processFile env f s) = Ok recs ->
  Forall2 (fun c r =>
     field r "id" = Some (JStr (Md5.generateId c)) /\
     field r "data" = Some (JStr c) /\
     field r "metadata" = Some (JObj [("fileName", JStr (basename f));
                                      ("filePath", JStr (relative (env_cwd env) f));
                                      ("fileType", JStr (substring1 (extname f)));
                                      ("timestamp", JNum (env_time env))]) /\
     field r "vector" = match env_embeddings env with
                        | None => None
                        | Some emb => Some (match emb c with
                                            | Some (v :: _) => JArr v
                                            | _ => JUndefined
                                            end)
                        end)
    (splitDocuments content) recs.
Proof.
  intros env f content s recs Hr. rewrite processFile_state. simpl.
  unfold processFile, readFile, bind. rewrite Hr. simpl. rewrite mapM_chunks_ok.
  apply Forall2_impl. intros c r. unfold processChunk.
  destruct (env_embeddings env) as [emb|].
  - destruct (emb c) as [[|v vs]|]; [| |discriminate]; simpl; intros [= <-]; auto.
  - simpl. intros [= <-]. auto.
Qed.

Lemma processFile_records_witness :
  let env := mkEnv ["w"] (fun _ => None) [] (fun _ => Some "hello world")
               (Some (fun _ => Some [[1%Z; 2%Z]])) (fun _ _ => None) 0 in
  let p := ["w"; "temp_repo"; "a.md"] in
  exists recs, snd (processFile env p st0) = Ok recs /\
    Forall2 (fun c r => field r "data" = Some (JStr c) /\
                        field r "vector" = Some (JArr [1%Z; 2%Z]))
            (splitDocuments "hello world") recs.
Proof.
  intros env p. destruct (snd (processFile env p st0)) as [recs|e] eqn:E.
  - exists recs. split; [reflexivity|].
    eapply Forall2_impl; [|exact (processFile_records env p "hello world" st0 recs eq_refl E)].
    intros c r (_ & Hd & _ & Hv). split; [exact Hd|exact Hv].
  - vm_compute in E. discriminate E.
Defined.


(** ** Runs from end to end *)

Lemma processAll_ok env fs : forall acc s,
  (forall f, In f fs -> exists rs, snd (processFile env f st0) = Ok rs) ->
  processAll env fs acc s =
  (mkSt (tmp_present s) (upserts s) (trace s ++ map (fun f => ELog (MProcessingFile f)) fs),
   Ok (acc ++ concat (map (file_records env) fs))).
Proof.
  induction fs as [|f fs IH]; intros acc s Hfs; simpl.
  - destruct s; simpl. now rewrite !app_nil_r.
  - unfold bind, log, emit. rewrite processFile_state.
    destruct (Hfs f (or_introl eq_refl)) as [rs Hrs]. rewrite Hrs.
    rewrite IH by (intros g Hg; apply Hfs; now right). simpl.
    replace (file_records env f) with rs by (unfold file_records; now rewrite Hrs).
    now rewrite <- !app_assoc.
Qed.

Lemma processAll_err env fs : forall acc s,
  (exists f e, In f fs /\ snd (processFile env f st0) = Err e) ->
  exists pre f rest e,
  fs = pre ++ f :: rest /\
  (forall g, In g pre -> exists rs, snd (processFile env g st0) = Ok rs) /\
  snd (processFile env f st0) = Err e /\
  processAll env fs acc s =
  (mkSt (tmp_present s) (upserts s)
        (trace s ++ map (fun f => ELog (MProcessingFile f)) (pre ++ [f])), Err e).
Proof.
  induction fs as [|f fs IH]; intros acc s Hfs; simpl.
  - destruct Hfs as (? & ? & [] & _).
  - unfold bind, log, emit. rewrite processFile_state.
    destruct (snd (processFile env f st0)) as [rs|e] eqn:Ef.
    + destruct Hfs as (g & e & [<-|Hg] & He); [congruence|].
      destruct (IH (acc ++ rs) (mkSt (tmp_present s) (upserts s) (trace s ++ [ELog (MProcessingFile f)])))
        as (pre & f' & rest & e' & -> & Hpre & Hf' & Hrun); [eauto|].
      exists (f :: pre), f', rest, e'. split; [reflexivity|]. split.
      * intros g' [<-|Hg']; eauto.
      * split; [exact Hf'|]. rewrite Hrun. simpl. now rewrite <- app_assoc.
    + exists [], f, fs, e. split; [reflexivity|]. split; [intros _ []|]. auto.
Qed.

Lemma processAll_trace env fs : forall acc s,
  exists pre, fst (processAll env fs acc s) =
  mkSt (tmp_present s) (upserts s) (trace s ++ map (fun f => ELog (MProcessingFile f)) pre).
Proof.
  induction fs as [|f fs IH]; intros acc s; simpl.
  - exists []. destruct s; simpl. now rewrite app_nil_r.
  - unfold bind, log, emit. rewrite processFile_state.
    destruct (snd (processFile env f st0)) as [rs|e].
    + destruct (IH (acc ++ rs) (mkSt (tmp_present s) (upserts s) (trace s ++ [ELog (MProcessingFile f)])))
        as [pre Hpre].
      exists (f :: pre). rewrite Hpre. simpl. now rewrite <- app_assoc.
    + exists [f]. reflexivity.
Qed.

Lemma upsertLoop_ns env bs ns all fuel : forall i s b ns',
  In (EUpsert b ns') (trace (fst (upsertLoop env bs ns all fuel i s))) ->
  In (EUpsert b ns') (trace s) \/ ns' = ns.
Proof.
  induction fuel as [|f IH]; intros i s b ns' Hin; simpl in Hin; [now left|].
  destruct (i <? List.length all); [|now left].
  unfold bind, upsert, log, emit in Hin.
  destruct (env_upsert env (upserts s) (slice all i (i + bs))); simpl in Hin.
  - apply in_app_or in Hin as [Hin|[[= _ <-]|[]]]; auto.
  - apply IH in Hin as [Hin|]; [|now right]. simpl in Hin.
    apply in_app_or in Hin as [Hin|[[= _ <-]|[]]]; auto.
    apply in_app_or in Hin as [Hin|[[=]|[]]]; auto.
Qed.

Lemma upsertLoop_run_accepting env ns all s :
  (forall k b, env_upsert env k b = None) ->
  upsertLoop env batchSize ns all (List.length all) 0 s =
  (mkSt (tmp_present s) (upserts s + ceil_div (List.length all) batchSize)
        (trace s ++ flat_map (batch_events batchSize ns all)
                               (seq 0 (ceil_div (List.length all) batchSize))), Ok tt).
Proof.
  intros Hacc.
  pose proof (upsertLoop_accepting env batchSize ns all ltac:(unfold batchSize; lia) Hacc
                (List.length all) 0 s) as H.
  rewrite Nat.mul_0_l, Nat.sub_0_r in H. apply H.
  apply ceil_div_le. unfold batchSize. lia.
Qed.

(** X3: when the clone succeeds, every discovered file is processed and the
    store accepts every call, [run] succeeds with this exact sequence of
    effects: the start and namespace logs, the removal of [temp_repo], the
    clone, the file count, one log per file, the chunk count, the batches
    (each store call followed by its progress line), the removal of
    [temp_repo] and the final log; it makes [ceil(n / 100)] store calls for
    the [n] records of the files in discovery order. *)
Theorem run_success_trace :
  forall env url s,
  let tmp := env_cwd env ++ ["temp_repo"] in
  let ns := Namespace.namespace_of url in
  let files := findMarkdownFiles tmp (env_tree env) in
  let all := concat (map (file_records env) files) in
  let c := ceil_div (List.length all) batchSize in
  env_clone env url = None ->
  (forall f, In f files -> exists rs, snd (processFile env f st0) = Ok rs) ->
  (forall k b, env_upsert env k b = None) ->
  run env url s =
  (mkSt false (upserts s + c)
     (trace s ++ [ELog (MProcessing url); ELog (MNamespace ns);
                  ERm tmp; EClone url tmp; ELog (MFound (List.length files))]
              ++ map (fun f => ELog (MProcessingFile f)) files
              ++ [ELog (MStoring (List.length all))]
              ++ flat_map (batch_events batchSize ns all) (seq 0 c)
              ++ [ERm tmp; ELog MDone]),
   Ok tt).
Proof.
  intros env url s tmp ns files all c Hcl Hfiles Hacc.
  unfold run, cloneRepository, rm, git_clone, log, emit, try_catch, bind, ret.
  rewrite Hcl. cbv beta iota zeta. cbn [tmp_present upserts trace].
  fold tmp files.
  rewrite processAll_ok by exact Hfiles. cbv beta iota zeta.
  rewrite upsertLoop_run_accepting by exact Hacc. cbn [tmp_present upserts trace app].
  fold all c ns. f_equal. f_equal. now rewrite <- !app_assoc.
Qed.

Lemma run_success_trace_witness :
  let env := mkEnv ["w"] (fun _ => None) [DFile "README.md"] (fun _ => Some "hello world")
               None (fun _ _ => None) 0 in
  let url := "https://github.com/upstash/docs2vector.git" in
  snd (run env url st0) = Ok tt /\ tmp_present (fst (run env url st0)) = false /\
  upserts (fst (run env url st0)) = 1.
Proof.
  intros env url. pose proof (run_success_trace env url st0) as H. cbv zeta in H.
  rewrite H; [vm_compute; auto|reflexivity| |reflexivity].
  intros f Hf. vm_compute in Hf. destruct Hf as [<-|[]]. eexists. vm_compute. reflexivity.
Defined.

(** X4: when the clone is rejected, [run] removes [temp_repo], attempts the
    clone, logs the error and rethrows it: no file is read and the store is
    never called. *)
Theorem run_clone_rejected :
  forall env url s e,
  let tmp := env_cwd env ++ ["temp_repo"] in
  env_clone env url = Some e ->
  run env url s =
  (mkSt false (upserts s)
     (trace s ++ [ELog (MProcessing url); ELog (MNamespace (Namespace.namespace_of url));
                  ERm tmp; EClone url tmp; EError e]),
   Err e).
Proof.
  intros env url s e tmp Hcl.
  unfold run, cloneRepository, rm, git_clone, log, emit, try_catch, bind, ret, throw.
  rewrite Hcl. cbv beta iota zeta. cbn [tmp_present upserts trace].
  now rewrite <- !app_assoc.
Qed.

Lemma run_clone_rejected_witness :
  let env := mkEnv ["w"] (fun _ => Some "Authentication failed") [] (fun _ => None)
               None (fun _ _ => None) 0 in
  let url := "https://github.com/upstash/private.git" in
  snd (run env url st0) = Err "Authentication failed" /\ upserts (fst (run env url st0)) = 0.
Proof.
  intros env url. rewrite (run_clone_rejected env url st0 "Authentication failed" eq_refl).
  split; reflexivity.
Defined.

(** X5: when a discovered file fails to process, [run] stops at the first
    such file with that file's error, after logging the files up to it; the
    store is never called, and the working copy is left on disk. *)
Theorem run_file_rejected :
  forall env url s,
  let tmp := env_cwd env ++ ["temp_repo"] in
  let files := findMarkdownFiles tmp (env_tree env) in
  env_clone env url = None ->
  (exists f e, In f files /\ snd (processFile env f st0) = Err e) ->
  exists pre f rest e,
  files = pre ++ f :: rest /\
  (forall g, In g pre -> exists rs, snd (processFile env g st0) = Ok rs) /\
  snd (processFile env f st0) = Err e /\
  run env url s =
  (mkSt true (upserts s)
     (trace s ++ [ELog (MProcessing url); ELog (MNamespace (Namespace.namespace_of url));
                  ERm tmp; EClone url tmp; ELog (MFound (List.length files))]
              ++ map (fun f => ELog (MProcessingFile f)) (pre ++ [f])
              ++ [EError e]),
   Err e).
Proof.
  intros env url s tmp files Hcl Hfail.
  destruct (processAll_err env files []
              (mkSt true (upserts s)
                 (((((trace s ++ [ELog (MProcessing url)]) ++
                    [ELog (MNamespace (Namespace.namespace_of url))]) ++ [ERm tmp]) ++
                    [EClone url tmp]) ++ [ELog (MFound (List.length files))])) Hfail)
    as (pre & f & rest & e & Hfs & Hpre & Hf & Hrun).
  exists pre, f, rest, e. split; [exact Hfs|]. split; [exact Hpre|]. split; [exact Hf|].
  unfold run, cloneRepository, rm, git_clone, log, emit, try_catch, bind, ret, throw.
  rewrite Hcl. cbv beta iota zeta. cbn [tmp_present upserts trace].
  fold tmp files. rewrite Hrun. cbv beta iota zeta. cbn [tmp_present upserts trace].
  now rewrite <- !app_assoc.
Qed.

Lemma run_file_rejected_witness :
  let env := mkEnv ["w"] (fun _ => None) [DFile "a.md"; DFile "b.md"] (fun _ => None)
               None (fun _ _ => None) 0 in
  let url := "https://github.com/upstash/docs2vector.git" in
  snd (run env url st0) = Err "ENOENT" /\ upserts (fst (run env url st0)) = 0 /\
  tmp_present (fst (run env url st0)) = true.
Proof.
  intros env url. pose proof (run_file_rejected env url st0) as H. cbv zeta in H.
  specialize (H eq_refl).
  destruct H as (pre & f & rest & e & Hfs & _ & Hf & Hrun).
  - exists ["w"; "temp_repo"; "a.md"], "ENOENT". split; [vm_compute; now left|reflexivity].
  - rewrite Hrun. vm_compute in Hf. injection Hf as <-. split; [reflexivity|split; reflexivity].
Defined.


Lemma ok_post_bind {A B} P (m : M A) (k : A -> M B) (Q : A -> Prop) :
  triple (fun _ => True) m Q -> (forall a, Q a -> ok_post P (k a)) -> ok_post P (bind m k).
Proof.
  intros Hm Hk s. unfold bind. destruct (Hm s I) as [_ HQ].
  destruct (m s) as [s' [a|e]]; [|exact I]. exact (Hk a (HQ a eq_refl) s').
Qed.

Lemma triple_true {A} (m : M A) : triple (fun _ => True) m (fun _ => True).
Proof. intros s _. auto. Qed.

Lemma triple_cloneRepository env url :
  triple (fun _ => True) (cloneRepository env url) (fun d => d = env_cwd env ++ ["temp_repo"]).
Proof.
  intros s _. split; [exact I|]. unfold cloneRepository, bind, rm, git_clone, ret.
  cbv beta iota zeta. destruct (env_clone env url); simpl; congruence.
Qed.

(** X6: whatever the environment, when [run] returns normally the working
    copy is gone and the last two effects are its removal and the final log;
    when it throws, its last effect is logging the error it throws. *)
Theorem run_outcome :
  forall env url s,
  let tmp := env_cwd env ++ ["temp_repo"] in
  let r := run env url s in
  (snd r = Ok tt -> tmp_present (fst r) = false /\
                    exists tr, trace (fst r) = tr ++ [ERm tmp; ELog MDone]) /\
  (forall e, snd r = Err e -> exists tr, trace (fst r) = tr ++ [EError e]).
Proof.
  intros env url s tmp r. unfold r, run, try_catch.
  set (P := fun s' : St => tmp_present s' = false /\
                            exists tr, trace s' = tr ++ [ERm tmp; ELog MDone]).
  match goal with |- context [match ?body s with _ => _ end] =>
    assert (Hb : ok_post P body); [|specialize (Hb s); destruct (body s) as [s' [a|e]]] end.
  - eapply ok_post_bind; [apply triple_true|]. intros _ _.
    eapply ok_post_bind; [apply triple_true|]. intros _ _.
    eapply ok_post_bind; [apply triple_cloneRepository|]. intros d ->.
    eapply ok_post_bind; [apply triple_true|]. intros _ _.
    eapply ok_post_bind; [apply triple_true|]. intros all _.
    eapply ok_post_bind; [apply triple_true|]. intros _ _.
    eapply ok_post_bind; [apply triple_true|]. intros _ _.
    intros s1. unfold bind, rm, log, emit. simpl. split; [reflexivity|].
    exists (trace s1). now rewrite <- app_assoc.
  - destruct a. simpl. split; [intros _; exact Hb|discriminate].
  - unfold bind, emit, throw. simpl. split; [discriminate|].
    intros e' [= <-]. eauto.
Qed.


Lemma ns_only_app N s evs s' :
  ns_only N s -> (forall b ns, ~ In (EUpsert b ns) evs) -> trace s' = trace s ++ evs ->
  ns_only N s'.
Proof.
  intros Hs Hevs Ht b ns Hin. rewrite Ht in Hin.
  apply in_app_or in Hin as [Hin|Hin]; [eauto|]. exfalso. exact (Hevs b ns Hin).
Qed.

Ltac no_upsert := intros ? ? Hx; repeat destruct Hx as [Hx|Hx]; try discriminate Hx; exact Hx.

Lemma ns_log N m : triple (ns_only N) (log m) (fun _ => True).
Proof. intros s Hs. split; [|auto]. eapply ns_only_app; [exact Hs| |reflexivity]. no_upsert. Qed.

Lemma ns_emit_error N e : triple (ns_only N) (emit (EError e)) (fun _ => True).
Proof. intros s Hs. split; [|auto]. eapply ns_only_app; [exact Hs| |reflexivity]. no_upsert. Qed.

Lemma ns_rm N p : triple (ns_only N) (rm p) (fun _ => True).
Proof. intros s Hs. split; [|auto]. eapply ns_only_app; [exact Hs| |reflexivity]. no_upsert. Qed.

Lemma ns_clone N env url : triple (ns_only N) (cloneRepository env url) (fun _ => True).
Proof.
  intros s Hs. split; [|auto]. unfold cloneRepository, bind, rm, git_clone, ret.
  cbv beta iota zeta. destruct (env_clone env url); simpl;
    (eapply ns_only_app; [exact Hs| |simpl; now rewrite <- app_assoc]); no_upsert.
Qed.

Lemma ns_processAll N env fs acc : triple (ns_only N) (processAll env fs acc) (fun _ => True).
Proof.
  intros s Hs. split; [|auto]. destruct (processAll_trace env fs acc s) as [pre ->].
  eapply ns_only_app; [exact Hs| |reflexivity].
  intros b ns Hin. apply in_map_iff in Hin as [? [Hx _]]. discriminate Hx.
Qed.

Lemma ns_upsertLoop env bs all fuel i N :
  triple (ns_only N) (upsertLoop env bs N all fuel i) (fun _ => True).
Proof.
  intros s Hs. split; [|auto]. intros b ns Hin.
  apply upsertLoop_ns in Hin as [Hin | ->]; [exact (Hs b ns Hin)|reflexivity].
Qed.

(** X7: every store call [run] makes names the namespace derived from the
    repository URL. *)
Theorem run_store_namespace :
  forall env url s,
  ns_only (Namespace.namespace_of url) s ->
  ns_only (Namespace.namespace_of url) (fst (run env url s)).
Proof.
  intros env url s Hs. set (N := Namespace.namespace_of url).
  refine (proj1 (_ s Hs)). unfold run. apply triple_try.
  - eapply triple_bind; [apply ns_log|]. intros _ _.
    eapply triple_bind; [apply ns_log|]. intros _ _.
    eapply triple_bind; [apply ns_clone|]. intros repoDir _.
    eapply triple_bind; [apply ns_log|]. intros _ _.
    eapply triple_bind; [apply ns_processAll|]. intros all _.
    eapply triple_bind; [apply ns_log|]. intros _ _.
    eapply triple_bind; [apply ns_upsertLoop|]. intros _ _.
    eapply triple_bind; [apply ns_rm|]. intros _ _. apply ns_log.
  - intros e. eapply triple_bind; [apply ns_emit_error|]. intros _ _. apply triple_throw.
Qed.

Lemma run_store_namespace_witness :
  let env := mkEnv ["w"] (fun _ => None) [DFile "README.md"] (fun _ => Some "hello world")
               None (fun _ _ => None) 0 in
  let url := "https://github.com/upstash/docs2vector.git" in
  ns_only "docs2vector" (fst (run env url st0)).
Proof.
  intros env url. apply (run_store_namespace env url st0). intros b ns [].
Defined.

(** ** Discovered files and their metadata *)

Lemma findInEntry_md e : forall dir p,
  In p (findInEntry dir e) -> md_match (last p EmptyString) = true.
Proof.
  induction e as [n|n ch IH|n] using dirent_ind'; intros dir p Hin.
  - rewrite findInEntry_leaf in Hin by reflexivity. simpl in Hin.
    destruct (md_match n) eqn:Hm; [|contradiction].
    destruct Hin as [<-|[]]. now rewrite last_last.
  - rewrite findInEntry_dir in Hin.
    destruct (JsString.startsWith n ".") eqn:Hd; simpl in Hin.
    + destruct (md_match n) eqn:Hm; [|contradiction].
      destruct Hin as [<-|[]]. now rewrite last_last.
    + apply in_flat_map in Hin as [x [Hx Hp]].
      rewrite Forall_forall in IH. exact (IH x Hx _ _ Hp).
  - rewrite findInEntry_leaf in Hin by reflexivity. simpl in Hin.
    destruct (md_match n) eqn:Hm; [|contradiction].
    destruct Hin as [<-|[]]. now rewrite last_last.
Qed.

Lemma endsWith_app s p :
  JsString.endsWith s p = true -> exists pre, s = String.append pre p.
Proof.
  induction s as [|c r IH]; intros H.
  - destruct p; [|discriminate]. now exists EmptyString.
  - assert (H' : (if String.eqb (String c r) p then true else JsString.endsWith r p) = true)
      by exact H. clear H. rename H' into H.
    destruct (String.eqb (String c r) p) eqn:E.
    + apply String.eqb_eq in E. now exists EmptyString.
    + destruct (IH H) as [pre ->]. now exists (String c pre).
Qed.

Lemma last_dot_app i a b :
  last_dot i (String.append a b) =
  match last_dot (i + String.length a) b with
  | Some j => Some j
  | None => last_dot i a
  end.
Proof.
  revert i. induction a as [|c r IH]; intros i; simpl.
  - rewrite Nat.add_0_r. now destruct (last_dot i b).
  - rewrite IH. replace (i + S (String.length r)) with (S i + String.length r) by lia.
    now destruct (last_dot (S i + String.length r) b).
Qed.

Lemma substring_app_length a b :
  String.substring (String.length a) (String.length b) (String.append a b) = b.
Proof.
  induction a as [|c r IH]; simpl; [|exact IH].
  induction b as [|c r IH]; simpl; [reflexivity|now rewrite IH].
Qed.

Lemma extname_suffix dir pre suf :
  pre <> EmptyString -> suf <> EmptyString -> (forall k, last_dot k suf = None) ->
  extname (dir ++ [String.append pre (String "." suf)]) = String "." suf.
Proof.
  intros Hpre Hne Hsuf. unfold extname, basename. rewrite last_last.
  replace (String.eqb (String.append pre (String "." suf)) "..") with false.
  2:{ symmetry. apply String.eqb_neq. intros Heq.
      apply (f_equal String.length) in Heq. rewrite slen_app in Heq. simpl in Heq.
      destruct pre; [congruence|]. destruct suf; [congruence|]. simpl in Heq. lia. }
  rewrite last_dot_app. simpl. rewrite Hsuf.
  destruct pre as [|c r]; [congruence|].
  pose proof (substring_app_length (String c r) (String "." suf)) as H.
  simpl String.length in H |- *. rewrite slen_app.
  replace (S (String.length r + String.length (String "." suf)) - S (String.length r))
    with (String.length (String "." suf)) by lia.
  exact H.
Qed.

Lemma md_match_cases n :
  md_match n = true ->
  exists pre, n = String.append pre ".md" \/ n = String.append pre ".mdx".
Proof.
  unfold md_match. intros H. apply orb_true_iff in H as [H|H];
    destruct (endsWith_app _ _ H) as [pre ->]; eauto.
Qed.

Lemma relative_segs_app cwd t : relative_segs cwd (cwd ++ t) = t.
Proof. induction cwd as [|x xs IH]; simpl; [reflexivity|]. now rewrite String.eqb_refl. Qed.

(** X9: a file found below [temp_repo] has the relative path
    [temp_repo/<segments>], its base name ends in ".md" or ".mdx", and the
    [fileType] the metadata records is "md" or "mdx" accordingly, or the
    empty string when the base name is exactly ".md" or ".mdx". *)
Theorem discovered_file_metadata :
  forall cwd es p,
  In p (findMarkdownFiles (cwd ++ ["temp_repo"]) es) ->
  exists segs pre,
    p = cwd ++ "temp_repo" :: segs /\
    relative cwd p = String.concat "/" ("temp_repo" :: segs) /\
    ((basename p = String.append pre ".md" /\
      substring1 (extname p) = if String.eqb pre EmptyString then EmptyString else "md") \/
     (basename p = String.append pre ".mdx" /\
      substring1 (extname p) = if String.eqb pre EmptyString then EmptyString else "mdx")).
Proof.
  intros cwd es p Hin.
  destruct (findMarkdownFiles_sound _ _ _ Hin) as [segs [Hp [Hne _]]].
  assert (Hmd : md_match (basename p) = true).
  { unfold findMarkdownFiles in Hin. apply in_flat_map in Hin as [e [_ He]].
    exact (findInEntry_md e _ _ He). }
  destruct (md_match_cases _ Hmd) as [pre Hb].
  exists segs, pre. rewrite <- app_assoc in Hp. split; [exact Hp|]. split.
  { unfold relative. rewrite Hp. now rewrite relative_segs_app. }
  assert (Hsplit : p = removelast p ++ [basename p]).
  { apply app_removelast_last. rewrite Hp. destruct cwd; discriminate. }
  destruct Hb as [Hb|Hb]; [left|right]; split; try exact Hb;
    rewrite Hsplit, Hb; destruct (String.eqb pre EmptyString) eqn:Ep.
  all: try (apply String.eqb_eq in Ep; subst pre; unfold extname, basename;
             rewrite last_last; reflexivity).
  all: apply String.eqb_neq in Ep; rewrite extname_suffix;
         [reflexivity|exact Ep|discriminate|intros k; reflexivity].
Qed.

Lemma discovered_file_metadata_witness :
  let es := [DDir "docs" [DFile "intro.mdx"]] in
  let p := ["w"; "temp_repo"; "docs"; "intro.mdx"] in
  In p (findMarkdownFiles (["w"] ++ ["temp_repo"]) es) /\
  exists segs pre, p = ["w"] ++ "temp_repo" :: segs /\
    relative ["w"] p = String.concat "/" ("temp_repo" :: segs) /\
    ((basename p = String.append pre ".md" /\
      substring1 (extname p) = if String.eqb pre EmptyString then EmptyString else "md") \/
     (basename p = String.append pre ".mdx" /\
      substring1 (extname p) = if String.eqb pre EmptyString then EmptyString else "mdx")).
Proof.
  intros es p. assert (Hin : In p (findMarkdownFiles (["w"] ++ ["temp_repo"]) es))
    by (vm_compute; now left).
  split; [exact Hin|]. exact (discovered_file_metadata ["w"] es p Hin).
Defined.

Lemma findInEntry_prefix e dir p :
  In p (findInEntry dir e) -> exists segs, p = dir ++ dirent_name e :: segs.
Proof.
  intros Hin. destruct (isDirectory e) eqn:Hd.
  - destruct e as [|n ch|]; try discriminate. rewrite findInEntry_dir in Hin.
    destruct (negb _).
    + apply in_flat_map in Hin as [x [_ Hx]].
      destruct (findInEntry_sound x _ _ Hx) as [segs [-> _]].
      exists segs. now rewrite <- app_assoc.
    + destruct (md_match n); [|contradiction]. destruct Hin as [<-|[]]. now exists [].
  - rewrite findInEntry_leaf in Hin by exact Hd.
    destruct (md_match _); [|contradiction]. destruct Hin as [<-|[]]. now exists [].
Qed.

(** X10: when the entries of each directory have distinct names,
    [#findMarkdownFiles] returns no path twice. *)
Theorem findMarkdownFiles_nodup :
  forall es dir, uniq_names es -> NoDup (findMarkdownFiles dir es).
Proof.
  intros es dir H. revert dir. induction H as [es Hnd Hch IH]. intros dir.
  unfold findMarkdownFiles. induction es as [|e es IHes]; simpl; [constructor|].
  inversion Hnd as [|? ? Hnotin Hnd']; subst.
  apply NoDup_app.
  - destruct (isDirectory e) eqn:Hd.
    + destruct e as [|n ch|]; try discriminate. rewrite findInEntry_dir.
      destruct (negb _).
      * apply (IH n ch (or_introl eq_refl)).
      * destruct (md_match n); repeat constructor. intros [].
    + rewrite findInEntry_leaf by exact Hd. destruct (md_match _); repeat constructor.
      intros [].
  - apply IHes; [exact Hnd'| |].
    + intros n ch Hin. apply (Hch n ch). now right.
    + intros n ch Hin dir'. apply (IH n ch). now right.
  - intros p Hp Hp'. apply in_flat_map in Hp' as [x [Hx Hpx]].
    destruct (findInEntry_prefix e dir p Hp) as [s1 ->].
    destruct (findInEntry_prefix x dir _ Hpx) as [s2 Heq].
    apply app_inv_head in Heq. injection Heq as Hn _.
    apply Hnotin. rewrite Hn. now apply in_map.
Qed.

Lemma findMarkdownFiles_nodup_witness :
  let es := [DDir "docs" [DFile "a.md"; DFile "b.md"]; DFile "README.md"] in
  uniq_names es /\ NoDup (findMarkdownFiles ["r"] es).
Proof.
  intros es.
  assert (Hu : uniq_names es).
  { constructor.
    - simpl. repeat constructor; simpl; intros H; intuition discriminate.
    - intros n ch [H|[H|[]]]; [|discriminate]. injection H as <- <-.
      constructor; [|intros n' ch' [H|[H|[]]]; discriminate].
      simpl. repeat constructor; simpl; intros H; intuition discriminate. }
  split; [exact Hu|]. exact (findMarkdownFiles_nodup es ["r"] Hu).
Defined.

(** ** Chunks of the splitter *)

Lemma trim_end_idem s : trim_end (trim_end s) = trim_end s.
Proof.
  induction s as [|c r IH]; [reflexivity|]. simpl.
  destruct (String.eqb (trim_end r) EmptyString && is_ws c) eqn:E; [reflexivity|].
  simpl. rewrite IH, E. reflexivity.
Qed.

Lemma trim_start_nonws s : s = EmptyString \/ starts_nonws s -> trim_start s = s.
Proof.
  intros [->|Hs]; [reflexivity|]. destruct s as [|c r]; [contradiction|].
  simpl. simpl in Hs. now rewrite Hs.
Qed.

Lemma trim_idem w : trim (trim w) = trim w.
Proof.
  unfold trim. destruct (trim_start_spec w) as (_ & _ & _ & Hs).
  revert Hs. generalize (trim_start w) as y. intros y Hs.
  rewrite (trim_start_nonws (trim_end y)); [apply trim_end_idem|].
  destruct (trim_end_spec y) as (b & _ & _ & He).
  destruct Hs as [->|Hs]; [now left|].
  right. revert He Hs. case y; [contradiction|].
  intros c r He Hs. exact (He c r eq_refl Hs).
Qed.

Lemma joinDocs_trimmed cur :
  Forall (fun c => c <> EmptyString /\ trim c = c) (opt_list (joinDocs cur EmptyString)).
Proof.
  unfold joinDocs. destruct (String.eqb _ EmptyString) eqn:E; constructor; [|constructor].
  split; [now apply String.eqb_neq|apply trim_idem].
Qed.

Lemma merge_go_trimmed cs ov splits : forall cur total,
  Forall (fun c => c <> EmptyString /\ trim c = c) (merge_go cs ov EmptyString splits cur total).
Proof.
  induction splits as [|d ds IH]; intros cur total; cbn [merge_go].
  - apply joinDocs_trimmed.
  - destruct (_ && _).
    + destruct (shrink cs ov EmptyString (String.length d) cur total) as [cur' t'].
      apply Forall_app. split; [apply joinDocs_trimmed|apply IH].
    + apply IH.
Qed.

Lemma split_loop_trimmed cs ov rec splits : forall good,
  (forall s, In s splits -> cs <= String.length s ->
     match rec with
     | None => False
     | Some f => Forall (fun c => c <> EmptyString /\ trim c = c) (f s)
     end) ->
  Forall (fun c => c <> EmptyString /\ trim c = c) (split_loop cs ov rec splits good).
Proof.
  assert (Hm : forall good, Forall (fun c => c <> EmptyString /\ trim c = c)
      (if is_nil good then [] else mergeSplits cs ov good EmptyString)).
  { intros good. destruct good; [constructor|]. apply merge_go_trimmed. }
  induction splits as [|s ss IH]; intros good Hrec; cbn [split_loop].
  - apply Hm.
  - destruct (String.length s <? cs) eqn:E.
    + apply IH. intros x Hx. apply Hrec. now right.
    + apply Nat.ltb_ge in E. apply Forall_app. split; [apply Hm|].
      apply Forall_app. split.
      * specialize (Hrec s (or_introl eq_refl) E). destruct rec; [exact Hrec|contradiction].
      * apply IH. intros x Hx. apply Hrec. now right.
Qed.

Lemma split_go_trimmed cs ov (Hcs : 2 <= cs) seps :
  last seps EmptyString = EmptyString ->
  forall text, Forall (fun c => c <> EmptyString /\ trim c = c)
                      (split_go cs ov EmptyString seps text).
Proof.
  assert (Hchars : forall text, Forall (fun c => c <> EmptyString /\ trim c = c)
    (split_loop cs ov None (splitOnSeparator text EmptyString) [])).
  { intros text. apply split_loop_trimmed. intros s Hs Hl.
    pose proof (splitOnSeparator_empty_sep text) as H1.
    rewrite Forall_forall in H1. specialize (H1 s Hs). lia. }
  induction seps as [|s rest IH]; intros Hlast text; cbn [split_go].
  - apply Hchars.
  - destruct (String.eqb s EmptyString); [apply Hchars|].
    apply last_cons_empty in Hlast.
    destruct (JsString.includes text s); [|apply IH; assumption].
    rewrite Hlast. apply split_loop_trimmed.
    intros x _ _. apply IH. exact Hlast.
Qed.

Lemma splitDocuments_trimmed t :
  Forall (fun c => c <> EmptyString /\ trim c = c) (splitDocuments t).
Proof.
  unfold splitDocuments, splitText.
  change (last separators EmptyString) with EmptyString.
  apply split_go_trimmed; [unfold chunkSize; lia|reflexivity].
Qed.

Lemma trimmed_starts_nonws c : c <> EmptyString -> trim c = c -> starts_nonws c.
Proof.
  intros Hne Ht. destruct (trim_spec c) as (_ & _ & _ & _ & _ & [H|H]); rewrite Ht in H;
    [contradiction|exact H].
Qed.

Lemma splitDocuments_ws t : all_ws t -> splitDocuments t = [].
Proof.
  intros Hws.
  destruct (split_go_cover chunkSize chunkOverlap separators EmptyString t)
    as (L & Hm & Hocc & _ & _).
  change (split_go chunkSize chunkOverlap EmptyString separators t) with (splitDocuments t) in Hm.
  destruct (splitDocuments t) as [|c cs] eqn:E; [reflexivity|exfalso].
  pose proof (splitDocuments_trimmed t) as Htr. rewrite E in Htr.
  inversion Htr as [|? ? [Hne Htc] _]; subst.
  destruct L as [|[o c'] L]; [discriminate|]. injection Hm as Hc _. simpl in Hc. subst c'.
  inversion Hocc as [|? ? Ho _]; subst. simpl in Ho.
  destruct (occurs_starts _ _ _ Ho (trimmed_starts_nonws c Hne Htc)) as (x & Hg & Hx).
  rewrite (Hws _ _ Hg) in Hx. discriminate.
Qed.

(** X11: every chunk of the splitter is non-empty and has no leading or
    trailing whitespace ([chunk.trim() === chunk]). *)
Theorem splitDocuments_chunks_trimmed :
  forall t, Forall (fun c => c <> EmptyString /\ trim c = c) (splitDocuments t).
Proof. exact splitDocuments_trimmed. Qed.

(** X12: the splitter returns no chunk exactly when the text is empty or
    all whitespace, whatever its length. *)
Theorem splitDocuments_empty_iff :
  forall t, splitDocuments t = [] <-> all_ws t.
Proof.
  intros t. split; [|apply splitDocuments_ws].
  destruct (split_go_cover chunkSize chunkOverlap separators EmptyString t)
    as (L & Hm & _ & _ & Hcov).
  change (split_go chunkSize chunkOverlap EmptyString separators t) with (splitDocuments t) in Hm.
  intros Hnil p x Hp. destruct (is_ws x) eqn:Hx; [reflexivity|].
  destruct (Hcov p x Hp Hx) as (o & c & Hin & _).
  rewrite Hnil in Hm. destruct L; [contradiction|discriminate].
Qed.

(** ** A repository without text *)

(** X8: when the clone succeeds and every discovered file is readable and
    holds only whitespace, [run] succeeds without calling the store, logs
    [0] chunks, and removes the working copy. *)
Theorem run_empty_repository :
  forall env url s,
  let tmp := env_cwd env ++ ["temp_repo"] in
  let files := findMarkdownFiles tmp (env_tree env) in
  env_clone env url = None ->
  (forall f, In f files -> exists content, env_read env f = Some content /\ all_ws content) ->
  run env url s =
  (mkSt false (upserts s)
     (trace s ++ [ELog (MProcessing url); ELog (MNamespace (Namespace.namespace_of url));
                  ERm tmp; EClone url tmp; ELog (MFound (List.length files))]
              ++ map (fun f => ELog (MProcessingFile f)) files
              ++ [ELog (MStoring 0); ERm tmp; ELog MDone]),
   Ok tt).
Proof.
  intros env url s tmp files Hcl Hfiles.
  assert (Hnil : forall f, In f files -> snd (processFile env f st0) = Ok []).
  { intros f Hf. destruct (Hfiles f Hf) as (content & Hr & Hws).
    unfold processFile, readFile, bind. rewrite Hr. simpl.
    rewrite (splitDocuments_ws content Hws). reflexivity. }
  assert (Hall : concat (map (file_records env) files) = []).
  { induction files as [|f fs IHf]; [reflexivity|]. simpl.
    unfold file_records at 1. rewrite (Hnil f (or_introl eq_refl)). simpl.
    apply IHf; intros g Hg; [apply Hfiles|apply Hnil]; now right. }
  unfold run, cloneRepository, rm, git_clone, log, emit, try_catch, bind, ret.
  rewrite Hcl. cbv beta iota zeta. cbn [tmp_present upserts trace].
  fold tmp files.
  rewrite processAll_ok by (intros f Hf; exists []; now apply Hnil).
  rewrite Hall. cbv beta iota zeta. cbn [tmp_present upserts trace app List.length upsertLoop ret].
  f_equal. f_equal. now rewrite <- !app_assoc.
Qed.

Lemma run_empty_repository_witness :
  let env := mkEnv ["w"] (fun _ => None) [DFile "README.md"]
               (fun _ => Some (String (ascii_of_nat 10) " ")) None (fun _ _ => None) 0 in
  let url := "https://github.com/upstash/empty.git" in
  snd (run env url st0) = Ok tt /\ upserts (fst (run env url st0)) = 0.
Proof.
  intros env url. pose proof (run_empty_repository env url st0) as H. cbv zeta in H.
  rewrite H; [split; reflexivity|reflexivity|].
  intros f Hf. vm_compute in Hf. destruct Hf as [<-|[]].
  eexists. split; [reflexivity|].
  intros [|[|p]] x Hx; simpl in Hx; try discriminate; injection Hx as <-; reflexivity.
Defined.

(** ** Namespace of common repository URLs *)

Lemma split_char_app c a b :
  exists l, l <> [] /\
  JsString.split_char c (String.append a (String c b)) = l ++ JsString.split_char c b.
Proof.
  induction a as [|d r IH]; simpl.
  - rewrite Ascii.eqb_refl. exists [EmptyString]. split; [discriminate|reflexivity].
  - destruct IH as (l & Hl & ->). destruct (Ascii.eqb c d).
    + exists (EmptyString :: l). split; [discriminate|reflexivity].
    + destruct l as [|w ws]; [congruence|]. exists (String d w :: ws).
      split; [discriminate|reflexivity].
Qed.

Lemma split_char_none c b :
  (forall p, String.get p b <> Some c) -> JsString.split_char c b = [b].
Proof.
  induction b as [|d r IH]; intros H; [reflexivity|]. simpl.
  rewrite IH by (intros p; exact (H (S p))).
  destruct (Ascii.eqb c d) eqn:E; [|reflexivity].
  apply Ascii.eqb_eq in E. subst. exfalso. exact (H 0 eq_refl).
Qed.

Lemma replace_absent s pat rep :
  JsString.includes s pat = false -> JsString.replace s pat rep = s.
Proof.
  induction s as [|c r IH]; simpl; intros H.
  - destruct pat; [discriminate H|reflexivity].
  - apply orb_false_iff in H as [H1 H2]. rewrite H1. now rewrite IH.
Qed.

Lemma prefix_app p s t :
  String.length p <= String.length s -> String.prefix p (String.append s t) = String.prefix p s.
Proof.
  revert s. induction p as [|a p IH]; intros s Hl; [destruct s; [destruct t|]; reflexivity|].
  destruct s as [|b s]; simpl in *; [lia|].
  destruct (ascii_dec a b); [apply IH; lia|reflexivity].
Qed.

Lemma prefix_git_short c r :
  String.length r < 3 -> String.prefix ".git" (String c (String.append r ".git")) = false.
Proof.
  intros Hr. destruct r as [|c2 [|c3 [|c4 r]]]; simpl in Hr; try lia;
    repeat (cbn [String.prefix String.append];
            match goal with |- context [ascii_dec ?a ?b] =>
              destruct (ascii_dec a b) as [E|E]; [try subst|] end);
    solve [reflexivity | discriminate E].
Qed.

Lemma replace_git_suffix x :
  JsString.includes x ".git" = false -> JsString.replace (String.append x ".git") ".git" EmptyString = x.
Proof.
  induction x as [|c r IH]; intros H; [reflexivity|].
  change (String.prefix ".git" (String c r) || JsString.includes r ".git" = false) in H.
  apply orb_false_iff in H as [H1 H2].
  change (JsString.replace (String.append (String c r) ".git") ".git" EmptyString) with
    (if String.prefix ".git" (String c (String.append r ".git"))
     then String.append EmptyString (JsString.drop 4 (String c (String.append r ".git")))
     else String c (JsString.replace (String.append r ".git") ".git" EmptyString)).
  replace (String.prefix ".git" (String c (String.append r ".git"))) with false.
  - cbv iota. now rewrite IH.
  - symmetry. destruct (Nat.lt_ge_cases (String.length r) 3) as [Hs|Hs].
    + now apply prefix_git_short.
    + change (String c (String.append r ".git")) with (String.append (String c r) ".git").
      rewrite prefix_app by (simpl; lia). exact H1.
Qed.

Lemma split_char_nonnil c b : JsString.split_char c b <> [].
Proof.
  destruct b as [|d r]; simpl; [discriminate|].
  destruct (Ascii.eqb c d); [discriminate|]. destruct (JsString.split_char c r); discriminate.
Qed.

Lemma last_app_ne {A} (l1 l2 : list A) d : l2 <> [] -> last (l1 ++ l2) d = last l2 d.
Proof.
  intros H. induction l1 as [|x l1 IH]; [reflexivity|]. simpl. rewrite IH.
  destruct (l1 ++ l2) eqn:E; [|reflexivity]. apply app_eq_nil in E. tauto.
Qed.

Lemma pop_last_split pre b :
  JsString.pop_last (JsString.split_char Namespace.slash (String.append pre (String "/" b))) =
  JsString.pop_last (JsString.split_char Namespace.slash b).
Proof.
  destruct (split_char_app Namespace.slash pre b) as (l & _ & Hl).
  unfold Namespace.slash in *. rewrite Hl. unfold JsString.pop_last.
  apply last_app_ne, split_char_nonnil.
Qed.

(** X13: for a URL whose last segment [name] contains no "/" and no
    ".git", the namespace is [name] whether or not the URL ends in ".git";
    a URL ending in "/" gives the empty namespace. *)
Theorem namespace_of_last_segment :
  forall pre name,
  (forall p, String.get p name <> Some "/"%char) ->
  JsString.includes name ".git" = false ->
  Namespace.namespace_of (String.append pre (String "/" name)) = name /\
  Namespace.namespace_of (String.append pre (String "/" (String.append name ".git"))) = name /\
  Namespace.namespace_of (String.append pre "/") = EmptyString.
Proof.
  intros pre name Hslash Hgit. unfold Namespace.namespace_of.
  split; [|split].
  - rewrite pop_last_split, split_char_none by exact Hslash.
    apply replace_absent, Hgit.
  - rewrite pop_last_split, split_char_none.
    + unfold JsString.pop_last. simpl. apply replace_git_suffix, Hgit.
    + intros p. rewrite get_app. destruct (p <? String.length name); [apply Hslash|].
      destruct (p - String.length name) as [|[|[|[|q]]]]; simpl; try discriminate.
  - rewrite pop_last_split. reflexivity.
Qed.

Lemma namespace_of_last_segment_witness :
  Namespace.namespace_of "https://github.com/upstash/docs2vector.git" = "docs2vector".
Proof.
  refine (proj1 (proj2 (namespace_of_last_segment "https://github.com/upstash" "docs2vector" _ eq_refl))).
  intros p. do 11 (destruct p as [|p]; [discriminate|]). discriminate.
Defined.
